(** * CompositeFunction.h (CNTK v2 library): graph traversal, ownership,
      input discovery and storage bookkeeping of a composite Function.

    The development embeds the inline member functions of
    [Source/CNTKv2LibraryDll/CompositeFunction.h] and states the
    properties of the design document about them.

    Pointers are identities ([positive]); the objects they point to live
    in a finite store ([gmap]); a call that dereferences a pointer with no
    object behind it fails.  The recursion of the traversal is driven by
    fuel, and running out of fuel is a result of its own, so that
    termination is a theorem about the fuel that suffices. *)

From stdpp Require Import gmap sets list strings pretty.

#[local] Set Warnings "-clear-no-such-hyp".

(** ** Results of a call *)

(** What a call can end with, apart from returning. *)
Inductive Failure :=
  | NullFunction      (* a FunctionPtr with no Function behind it was dereferenced *)
  | OutOfRange        (* std::unordered_map::at on a missing key *)
  | NotImplemented    (* the NOT_IMPLEMENTED macro *)
  | StaleBackPropState (* Backward: time stamps differ from those of Forward *)
  | UnsupportedVersion. (* Deserialize: version newer than s_serializationVersion *)

Inductive result (A : Type) :=
  | Done (a : A)
  | Fail (e : Failure)
  | OutOfFuel.
Arguments Done {A} a.
Arguments Fail {A} e.
Arguments OutOfFuel {A}.

Definition result_map {A B} (f : A → B) (r : result A) : result B :=
  match r with
  | Done a => Done (f a)
  | Fail e => Fail e
  | OutOfFuel => OutOfFuel
  end.

(** Two runs end the same way, and related when both return. *)
Definition result_rel {A B} (R : A → B → Prop) (r1 : result A) (r2 : result B) : Prop :=
  match r1, r2 with
  | Done a, Done b => R a b
  | Fail e1, Fail e2 => e1 = e2
  | OutOfFuel, OutOfFuel => True
  | _, _ => False
  end.

(** ** Variables and Functions *)

(** A [FunctionPtr] is the identity of a Function object. *)
Abbreviation FunctionPtr := positive (only parsing).

(** Modelled from the spec: the enum VariableKind is declared in
    CNTKLibrary.h, outside this header; the kinds are those of the data
    model (Input, Output, Parameter, Placeholder). *)
Inductive VariableKind := InputKind | OutputKind | ParameterKind | PlaceholderKind.

(** CNTK::Variable.  Equality and hashing of a Variable go through the
    identity of its data fields, here [Uid].  [Owner] is the owning
    Function of an Output (a null pointer is [None]). *)
Record Var := mkVar {
  Uid : positive;
  Kind : VariableKind;
  Owner : option FunctionPtr
}.

Definition IsOutput (v : Var) : bool :=
  match Kind v with OutputKind => true | _ => false end.

#[global] Instance VariableKind_eq_dec : EqDecision VariableKind.
Proof. solve_decision. Defined.

#[global] Instance VariableKind_countable : Countable VariableKind.
Proof.
  refine (inj_countable'
    (λ k, match k with
          | InputKind => 0 | OutputKind => 1 | ParameterKind => 2 | PlaceholderKind => 3
          end)
    (λ n, match n with
          | 0 => InputKind | 1 => OutputKind | 2 => ParameterKind | _ => PlaceholderKind
          end) _).
  by intros [].
Defined.

#[global] Instance Var_eq_dec : EqDecision Var.
Proof. solve_decision. Defined.

#[global] Instance Var_countable : Countable Var.
Proof.
  refine (inj_countable'
    (λ v, (Uid v, Kind v, Owner v))
    (λ t, mkVar t.1.1 t.1.2 t.2) _).
  by intros [].
Defined.

(** What the traversal reads of a Function: [InitOutputs()] and
    [Inputs(pythonOperandOrder)].  Both are declared in CNTKLibrary.h;
    the two operand orders are kept as an arbitrary function of the flag. *)
Record FunctionObj := mkFunction {
  InitOutputs : list Var;
  Inputs : bool → list Var
}.

(** The Function objects that exist, by identity. *)
Abbreviation Graph := (gmap positive FunctionObj) (only parsing).

(** ** TraverseVariables *)

(** The visitor ([functor]) is a callable with effects of its own; it is
    a function on a state [St] that it alone reads and writes, and it does
    not change the graph it is walked over. *)
Section Traversal.
Context {St : Type}.
Variable g : Graph.
Variable functor : Var → St → St.
Variable pythonOperandOrder preOrder : bool.

(** [for (const auto& rootOutput : rootFunctionOutputs) functor(rootOutput);] *)
Definition visit_outputs (rootFunctionOutputs : list Var) (s : St) : St :=
  foldl (λ s rootOutput, functor rootOutput s) s rootFunctionOutputs.

(** The loop over [rootFunctionInputs]; [recurse] is the recursive call. *)
Fixpoint TraverseInputs
    (recurse : FunctionPtr → gset positive → St → result (gset positive * St))
    (rootFunctionInputs : list Var) (visitedFunctions : gset positive) (s : St)
    : result (gset positive * St) :=
  match rootFunctionInputs with
  | [] => Done (visitedFunctions, s)
  | rootInput :: rest =>
      if IsOutput rootInput then
        match Owner rootInput with
        | None => Fail NullFunction
        | Some function =>
            if decide (function ∈ visitedFunctions) then
              TraverseInputs recurse rest visitedFunctions s
            else
              match recurse function visitedFunctions s with
              | Done (visitedFunctions', s') =>
                  TraverseInputs recurse rest visitedFunctions' s'
              | Fail e => Fail e
              | OutOfFuel => OutOfFuel
              end
        end
      else TraverseInputs recurse rest visitedFunctions (functor rootInput s)
  end.

(** The overload with the caller's [visitedFunctions] (lines 150-181). *)
Fixpoint TraverseVariables (fuel : nat) (rootFunction : FunctionPtr)
    (visitedFunctions : gset positive) (s : St) : result (gset positive * St) :=
  match fuel with
  | 0 => OutOfFuel
  | S fuel' =>
      match g !! rootFunction with
      | None => Fail NullFunction
      | Some f =>
          let visitedFunctions := {[rootFunction]} ∪ visitedFunctions in
          let rootFunctionOutputs := InitOutputs f in
          let s := if preOrder then visit_outputs rootFunctionOutputs s else s in
          match TraverseInputs (TraverseVariables fuel')
                  (Inputs f pythonOperandOrder) visitedFunctions s with
          | Done (visitedFunctions, s) =>
              Done (visitedFunctions,
                    if preOrder then s else visit_outputs rootFunctionOutputs s)
          | Fail e => Fail e
          | OutOfFuel => OutOfFuel
          end
      end
  end.

(** The overload that starts from an empty [visitedFunctions] (lines 141-146). *)
Definition TraverseVariables0 (fuel : nat) (rootFunction : FunctionPtr) (s : St)
    : result (gset positive * St) :=
  TraverseVariables fuel rootFunction ∅ s.
End Traversal.

Definition PreorderTraverseVariables {St} (g : Graph) (fuel : nat) (rootFunction : FunctionPtr)
    (functor : Var → St → St) (pythonOperandOrder : bool) (s : St) :=
  TraverseVariables0 g functor pythonOperandOrder true fuel rootFunction s.

Definition PostorderTraverseVariables {St} (g : Graph) (fuel : nat) (rootFunction : FunctionPtr)
    (functor : Var → St → St) (pythonOperandOrder : bool) (s : St) :=
  TraverseVariables0 g functor pythonOperandOrder false fuel rootFunction s.

(** The visitor that records, in order, the Variables it is called on. *)
Definition record_visit (v : Var) (t : list Var) : list Var := t ++ [v].

(** The sequence of visitor calls of a traversal. *)
Definition visits (g : Graph) (pythonOperandOrder preOrder : bool) (fuel : nat)
    (rootFunction : FunctionPtr) (visitedFunctions : gset positive)
    : result (gset positive * list Var) :=
  TraverseVariables g record_visit pythonOperandOrder preOrder fuel rootFunction
    visitedFunctions [].

(** ** DetermineInputs (lines 211-240) *)

(** The lambda handed to TraverseVariables; its captures [inputs] and
    [uniqueInputs] are the state. *)
Definition DetermineInputs_visit (var : Var) (st : list Var * gset Var)
    : list Var * gset Var :=
  let '(inputs, uniqueInputs) := st in
  if negb (IsOutput var) && bool_decide (var ∉ uniqueInputs)
  then (inputs ++ [var], {[var]} ∪ uniqueInputs)
  else (inputs, uniqueInputs).

Definition DetermineInputs (g : Graph) (fuel : nat) (rootFunction : FunctionPtr)
    (visitedFunctions : gset positive) (pythonOperandOrder : bool)
    : result (gset positive * list Var) :=
  result_map (λ r, (r.1, r.2.1))
    (TraverseVariables g DetermineInputs_visit pythonOperandOrder true fuel
       rootFunction visitedFunctions ([], ∅)).

(** The design's words for the list DetermineInputs returns: the
    Variables of a sequence, each kept where it is first seen. *)
Fixpoint first_seen (l : list Var) : list Var :=
  match l with
  | [] => []
  | v :: l' => v :: filter (λ v', v' ≠ v) (first_seen l')
  end.

(** ** NextAutoGeneratedDynamicAxis (lines 60-69) *)

(** Axis is declared in CNTKLibrary.h; the constructor used here takes
    the name of the axis, and an Axis is kept as that name. *)
Record Axis := mkAxis { AxisName : string }.

Definition s_autoGeneratedDynamicAxisNamePrefix : string := "autoGeneratedDynamicAxis_".

(** [s_nextAutoGeneratedDynamicAxis] is an [unsigned int]: 32 bits, and
    the post-increment wraps around.  The call returns the Axis and the
    counter it leaves behind; [std::to_wstring] of an unsigned number is
    its decimal numeral. *)
Definition NextAutoGeneratedDynamicAxis (s_nextAutoGeneratedDynamicAxis : N) : Axis * N :=
  (mkAxis (s_autoGeneratedDynamicAxisNamePrefix +:+ pretty s_nextAutoGeneratedDynamicAxis),
   ((s_nextAutoGeneratedDynamicAxis + 1) mod 2 ^ 32)%N).

(** The counter after [k] calls. *)
Definition counter_after (k : N) (s_nextAutoGeneratedDynamicAxis : N) : N :=
  N.iter k (λ s, (NextAutoGeneratedDynamicAxis s).2) s_nextAutoGeneratedDynamicAxis.

(** The Axis returned by call number [k], counted from 0. *)
Definition nth_generated_axis (k : N) (s_nextAutoGeneratedDynamicAxis : N) : Axis :=
  (NextAutoGeneratedDynamicAxis (counter_after k s_nextAutoGeneratedDynamicAxis)).1.

(** ** Collect and Create (lines 72-85, 219-223) *)

Section FunctionTraversal.
Context {St : Type}.
Variable g : Graph.
Variable functor : FunctionPtr → St → St.

(** Modelled from the spec: Function::PreorderTraverseFunctions is
    declared in CNTKLibrary.h, outside this header.  The design has one
    Traversal that collection reuses: the root is put into the visited
    set and handed to the visitor, then each input that is an Output
    whose owner is not yet in the visited set is descended into, in the
    declaration order of the inputs. *)
Fixpoint TraverseFunctionInputs
    (recurse : FunctionPtr → gset positive → St → result (gset positive * St))
    (rootFunctionInputs : list Var) (visitedFunctions : gset positive) (s : St)
    : result (gset positive * St) :=
  match rootFunctionInputs with
  | [] => Done (visitedFunctions, s)
  | rootInput :: rest =>
      if IsOutput rootInput then
        match Owner rootInput with
        | None => Fail NullFunction
        | Some function =>
            if decide (function ∈ visitedFunctions) then
              TraverseFunctionInputs recurse rest visitedFunctions s
            else
              match recurse function visitedFunctions s with
              | Done (visitedFunctions', s') =>
                  TraverseFunctionInputs recurse rest visitedFunctions' s'
              | Fail e => Fail e
              | OutOfFuel => OutOfFuel
              end
        end
      else TraverseFunctionInputs recurse rest visitedFunctions s
  end.

(** Modelled from the spec: see [TraverseFunctionInputs]. *)
Fixpoint PreorderTraverseFunctions (fuel : nat) (rootFunction : FunctionPtr)
    (visitedFunctions : gset positive) (s : St) : result (gset positive * St) :=
  match fuel with
  | 0 => OutOfFuel
  | S fuel' =>
      match g !! rootFunction with
      | None => Fail NullFunction
      | Some f =>
          TraverseFunctionInputs (PreorderTraverseFunctions fuel') (Inputs f false)
            ({[rootFunction]} ∪ visitedFunctions) (functor rootFunction s)
      end
  end.
End FunctionTraversal.

(** The visitor that records the Functions it is called on. *)
Definition record_function (f : FunctionPtr) (t : list positive) : list positive :=
  t ++ [f].

(** [Collect] fills [functions] through PreorderTraverseFunctions with a
    visitor that does nothing. *)
Definition Collect (g : Graph) (fuel : nat) (rootFunction : FunctionPtr)
    (functions : gset positive) : result (gset positive) :=
  result_map fst
    (PreorderTraverseFunctions g (λ (_ : FunctionPtr) (u : unit), u) fuel
       rootFunction functions tt).

(** A weak reference to a PackedValue is the identity of the object. *)
Abbreviation PackedValueWeakPtr := positive (only parsing).

(** The members of CompositeFunction that the inline functions touch. *)
Record CompositeFunction := mkComposite {
  m_rootFunction : FunctionPtr;
  m_allPrimitiveFunctions : gset positive;
  m_existingNetworkStorageReferences : list PackedValueWeakPtr;
  m_currentBackpropRoots : gset Var
}.

(** [Create]: the composite owns what [Collect] found from the root.
    ([InitOutputs] on the new composite defers to the root Function,
    line 103, and leaves the members above alone.) *)
Definition Create (g : Graph) (fuel : nat) (rootFunction : FunctionPtr)
    : result CompositeFunction :=
  result_map (λ visitedFunctions, mkComposite rootFunction visitedFunctions [] ∅)
    (Collect g fuel rootFunction ∅).

(** ** OnPlaceholdersReplaced (lines 186-204) *)

(** The loop over [replacedPlaceholders], threading [m_allPrimitiveFunctions]. *)
Fixpoint OnPlaceholdersReplaced_loop (g : Graph) (fuel : nat)
    (placeholderReplacements : gmap Var Var) (replacedPlaceholders : list Var)
    (allPrimitiveFunctions : gset positive) : result (gset positive) :=
  match replacedPlaceholders with
  | [] => Done allPrimitiveFunctions
  | replacedPlaceholder :: rest =>
      match placeholderReplacements !! replacedPlaceholder with
      | None => Fail OutOfRange
      | Some replacingVariable =>
          if IsOutput replacingVariable then
            match Owner replacingVariable with
            | None => Fail NullFunction
            | Some ownerFunc =>
                match Collect g fuel ownerFunc ∅ with
                | Done visitedFunctions2 =>
                    OnPlaceholdersReplaced_loop g fuel placeholderReplacements rest
                      (allPrimitiveFunctions ∪ visitedFunctions2)
                | Fail e => Fail e
                | OutOfFuel => OutOfFuel
                end
            end
          else
            OnPlaceholdersReplaced_loop g fuel placeholderReplacements rest
              allPrimitiveFunctions
      end
  end.

(** [replacedPlaceholders] is an unordered set; it is walked in the order
    of [elements]. *)
Definition OnPlaceholdersReplaced (g : Graph) (fuel : nat)
    (placeholderReplacements : gmap Var Var) (replacedPlaceholders : gset Var)
    (self : CompositeFunction) : result CompositeFunction :=
  result_map
    (λ all, mkComposite (m_rootFunction self) all
              (m_existingNetworkStorageReferences self) (m_currentBackpropRoots self))
    (OnPlaceholdersReplaced_loop g fuel placeholderReplacements
       (elements replacedPlaceholders) (m_allPrimitiveFunctions self)).

(** A replaced placeholder whose replacement is an Output of the
    Function [o]. *)
Definition spliced (placeholderReplacements : gmap Var Var)
    (replacedPlaceholders : list Var) (o : FunctionPtr) : Prop :=
  ∃ p r, p ∈ replacedPlaceholders ∧ placeholderReplacements !! p = Some r ∧
         IsOutput r = true ∧ Owner r = Some o.

(** ** ClearExistingOutputOrGradientStorageReferences (lines 313-323) *)

(** How often a reference is held in a list of references. *)
Definition held (r : PackedValueWeakPtr) (refs : list PackedValueWeakPtr) : nat :=
  length (filter (λ r', r' = r) refs).

Section Storage.
(** PackedValue and its [Erase] are declared in Value.h; they are kept
    abstract.  The store holds the PackedValues that are still alive: a
    weak reference locks iff its object is in the store. *)
Context {PackedValue : Type}.
Variable Erase : PackedValue → PackedValue.

Fixpoint erase_references (refs : list PackedValueWeakPtr)
    (store : gmap positive PackedValue) : gmap positive PackedValue :=
  match refs with
  | [] => store
  | existingStorageWeakReference :: rest =>
      match store !! existingStorageWeakReference with
      | Some existingStorageReference =>
          erase_references rest
            (<[existingStorageWeakReference := Erase existingStorageReference]> store)
      | None => erase_references rest store
      end
  end.

Definition ClearExistingOutputOrGradientStorageReferences
    (self : CompositeFunction) (store : gmap positive PackedValue)
    : CompositeFunction * gmap positive PackedValue :=
  (mkComposite (m_rootFunction self) (m_allPrimitiveFunctions self) []
     (m_currentBackpropRoots self),
   erase_references (m_existingNetworkStorageReferences self) store).
End Storage.

(** ** The vector overload of Forward (lines 93-99) *)

(** Modelled from the spec: the macro NOT_IMPLEMENTED is defined outside
    this header; it ends the call with the failure of that name. *)
Definition NOT_IMPLEMENTED {A : Type} : result A := Fail NotImplemented.

Abbreviation ValuePtr := positive (only parsing).
Abbreviation DeviceDescriptor := nat (only parsing).

(** CNTKBackPropState (lines 17-31): the time stamps recorded by Forward. *)
Record CNTKBackPropState := mkBackPropState {
  BackpropRootsForwardTimeStamps : gmap Var N
}.

(** The call returns its result together with the composite and the
    [outputs] map as the call leaves them. *)
Definition Forward_vector (self : CompositeFunction) (inputValues : list ValuePtr)
    (outputs : gmap Var positive) (computeDevice : DeviceDescriptor)
    (outputsToRetainBackwardStateFor : gset Var)
    : result CNTKBackPropState * (CompositeFunction * gmap Var positive) :=
  (NOT_IMPLEMENTED, (self, outputs)).

(** ** Deserialization and the serialization version *)

(** Line 362. *)
Definition s_serializationVersion : nat := 3.

(** Modelled from the spec: Deserialize and RestoreStatefulFunctions are
    only declared in this header (lines 122, 260), and Dictionary is
    declared elsewhere.  A document has a version, the serialized
    Functions with the state their attributes may hold (version 3), and the
    side table of states by uid (versions up to 2). *)
Record SerializedFunction := mkSerialized {
  s_uid : positive;
  s_stateful : bool;
  s_attributes_state : option N
}.

Record Dictionary := mkDictionary {
  d_version : nat;
  d_functions : list SerializedFunction;
  d_state : gmap positive N
}.

(** A reconstructed primitive Function, with its internal state if any. *)
Record PrimitiveFunction := mkPrimitive {
  p_uid : positive;
  p_stateful : bool;
  p_state : option N
}.

(** Modelled from the spec: reconstruction of one Function; from version
    3 on the state is taken from the attributes. *)
Definition reconstruct (version : nat) (f : SerializedFunction) : PrimitiveFunction :=
  mkPrimitive (s_uid f) (s_stateful f)
    (if decide (3 ≤ version) then s_attributes_state f else None).

(** Modelled from the spec: the restoration pass of the older versions,
    which reads the state of every stateful Function from the side table. *)
Definition RestoreStatefulFunctions (version : nat) (dict : Dictionary)
    (PrimitiveFunctions : list PrimitiveFunction) : list PrimitiveFunction :=
  (λ f, if p_stateful f
        then mkPrimitive (p_uid f) (p_stateful f) (d_state dict !! p_uid f)
        else f) <$> PrimitiveFunctions.

(** Modelled from the spec: a version newer than the supported one is
    refused; otherwise the Functions are reconstructed and, below version
    3, the restoration pass runs on them. *)
Definition Deserialize (dict : Dictionary) : result (list PrimitiveFunction) :=
  if decide (s_serializationVersion < d_version dict) then Fail UnsupportedVersion
  else
    let allPrimitiveFunctions := reconstruct (d_version dict) <$> d_functions dict in
    if decide (d_version dict < 3)
    then Done (RestoreStatefulFunctions (d_version dict) dict allPrimitiveFunctions)
    else Done allPrimitiveFunctions.

(** ** Sample graphs *)

Module Samples.
Definition x : Var := mkVar 1 InputKind None.
Definition w : Var := mkVar 2 ParameterKind None.
Definition o1 : Var := mkVar 11 OutputKind (Some 1%positive).
Definition o2 : Var := mkVar 12 OutputKind (Some 2%positive).
Definition o3 : Var := mkVar 13 OutputKind (Some 3%positive).
Definition o4 : Var := mkVar 14 OutputKind (Some 4%positive).

(** A diamond: 1 consumes the outputs of 2 and 3, which both consume the
    output of 4; the Parameter [w] is consumed by 2, 3 and 4. *)
Definition diamond : Graph :=
  {[ 1%positive := mkFunction [o1] (λ _, [o2; o3]);
     2%positive := mkFunction [o2] (λ _, [o4; w]);
     3%positive := mkFunction [o3] (λ _, [w; o4]);
     4%positive := mkFunction [o4] (λ _, [x; w]) ]}.

(** A recurrent loop: 1 consumes the output of 2, and 2 that of 1. *)
Definition cycle : Graph :=
  {[ 1%positive := mkFunction [o1] (λ _, [o2; x]);
     2%positive := mkFunction [o2] (λ _, [o1; w]) ]}.

(** The branch of the diamond under 2, with the placeholder [p] to be
    replaced by the output of 3. *)
Definition p : Var := mkVar 20 PlaceholderKind None.
Definition branch : CompositeFunction := mkComposite 2%positive {[2%positive; 4%positive]} [] ∅.

(** One Function that reads the same Input twice, as in [x * x]. *)
Definition square : Graph :=
  {[ 1%positive := mkFunction [o1] (λ _, [x; x]) ]}.
End Samples.

(** ** Reachability along Output-owner edges *)

Section Reachability.
Variable g : Graph.
Variable pythonOperandOrder : bool.

(** [b] owns an Output that [a] takes as input. *)
Definition edge (a b : FunctionPtr) : Prop :=
  ∃ f v, g !! a = Some f ∧ v ∈ Inputs f pythonOperandOrder ∧
         IsOutput v = true ∧ Owner v = Some b.

Definition reachable : FunctionPtr → FunctionPtr → Prop := rtc edge.

(** The owner of [v] is set and exists. *)
Definition owner_exists (v : Var) : Prop :=
  ∃ b, Owner v = Some b ∧ is_Some (g !! b).

(** The owner of [v] is set, exists, and has [v] among its outputs. *)
Definition owner_lists (v : Var) : Prop :=
  ∃ b fb, Owner v = Some b ∧ g !! b = Some fb ∧ v ∈ InitOutputs fb.

(** Every Output taken as input has an owner, and the owner exists. *)
Definition closed : Prop :=
  ∀ a f v, g !! a = Some f → v ∈ Inputs f pythonOperandOrder →
           IsOutput v = true → owner_exists v.

(** The Variables the visitor is handed while a Function is processed:
    its outputs, and those of its inputs that are not Outputs. *)
Definition vars_of (a : FunctionPtr) : list Var :=
  match g !! a with
  | Some f => InitOutputs f ++
              filter (λ v, IsOutput v = false) (Inputs f pythonOperandOrder)
  | None => []
  end.

(** A Variable of the graph under a root: an output or an input of a
    Function reachable from it. *)
Definition reachable_var (root : FunctionPtr) (v : Var) : Prop :=
  ∃ a f, reachable root a ∧ g !! a = Some f ∧
         (v ∈ InitOutputs f ∨ v ∈ Inputs f pythonOperandOrder).

(** The invariant of the data model: an Output is among the outputs of
    its owner and of no other Function, and a Function lists each of its
    outputs once. *)
Definition well_formed : Prop :=
  (∀ a f v, g !! a = Some f → v ∈ InitOutputs f →
            IsOutput v = true ∧ Owner v = Some a) ∧
  (∀ a f, g !! a = Some f → NoDup (InitOutputs f)) ∧
  (∀ a f v, g !! a = Some f → v ∈ Inputs f pythonOperandOrder →
            IsOutput v = true → owner_lists v).

#[global] Instance owner_exists_dec v : Decision (owner_exists v).
Proof.
  unfold owner_exists. destruct (Owner v) as [b|].
  - destruct (decide (is_Some (g !! b))); [left; by eauto|right; naive_solver].
  - right; naive_solver.
Defined.

#[global] Instance owner_lists_dec v : Decision (owner_lists v).
Proof.
  unfold owner_lists. destruct (Owner v) as [b|].
  - destruct (g !! b) as [fb|] eqn:Hb.
    + destruct (decide (v ∈ InitOutputs fb)) as [Hin|Hin].
      * left. by exists b, fb.
      * right. intros (b' & fb' & [= <-] & Hb' & Hin').
        rewrite Hb in Hb'. by inversion Hb'; subst.
    + right. intros (b' & fb' & [= <-] & Hb' & _). by rewrite Hb in Hb'.
  - right. by intros (b' & fb' & ? & _).
Defined.

#[global] Instance closed_dec : Decision closed.
Proof.
  refine (cast_if (decide (map_Forall
    (λ _ f, Forall (λ v, IsOutput v = true → owner_exists v)
              (Inputs f pythonOperandOrder)) g))).
  - intros a f v Hf Hv.
    match goal with
    | H : map_Forall _ _ |- _ =>
        exact (proj1 (Forall_forall _ _) (H a f Hf) v Hv)
    end.
  - intros Hc.
    match goal with H : ¬ map_Forall _ _ |- _ => apply H end.
    intros a f Hf. apply Forall_forall. intros v Hv. by eapply Hc.
Defined.

#[global] Instance well_formed_dec : Decision well_formed.
Proof.
  refine (cast_if (decide (
    map_Forall (λ a f, Forall (λ v, IsOutput v = true ∧ Owner v = Some a)
                         (InitOutputs f)) g ∧
    map_Forall (λ _ f, NoDup (InitOutputs f)) g ∧
    map_Forall (λ _ f, Forall (λ v, IsOutput v = true → owner_lists v)
                         (Inputs f pythonOperandOrder)) g))).
  - match goal with H : _ ∧ _ ∧ _ |- _ => destruct H as (H1 & H2 & H3) end.
    split; [|split].
    + intros a f v Hf Hv. exact (proj1 (Forall_forall _ _) (H1 a f Hf) v Hv).
    + intros a f Hf. by apply (H2 a f).
    + intros a f v Hf Hv. exact (proj1 (Forall_forall _ _) (H3 a f Hf) v Hv).
  - intros (H1 & H2 & H3).
    match goal with H : ¬ _ |- _ => apply H end.
    split; [|split].
    + intros a f Hf. apply Forall_forall. intros v Hv. by eapply H1.
    + intros a f Hf. by eapply H2.
    + intros a f Hf. apply Forall_forall. intros v Hv. by eapply H3.
Defined.

(** *** The order in which Functions are entered *)

(** The traversal with the visitor left out: which Functions it enters,
    in order.  It is what TraverseVariables and the collection of
    Functions have in common. *)
Fixpoint walk_inputs
    (recurse : FunctionPtr → gset positive → result (gset positive * list positive))
    (inputs : list Var) (visited : gset positive)
    : result (gset positive * list positive) :=
  match inputs with
  | [] => Done (visited, [])
  | v :: rest =>
      if IsOutput v then
        match Owner v with
        | None => Fail NullFunction
        | Some o =>
            if decide (o ∈ visited) then walk_inputs recurse rest visited
            else
              match recurse o visited with
              | Done (visited1, entered1) =>
                  result_map (λ r, (r.1, entered1 ++ r.2))
                    (walk_inputs recurse rest visited1)
              | Fail e => Fail e
              | OutOfFuel => OutOfFuel
              end
        end
      else walk_inputs recurse rest visited
  end.

Fixpoint walk (fuel : nat) (root : FunctionPtr) (visited : gset positive)
    : result (gset positive * list positive) :=
  match fuel with
  | 0 => OutOfFuel
  | S fuel' =>
      match g !! root with
      | None => Fail NullFunction
      | Some f =>
          result_map (λ r, (r.1, root :: r.2))
            (walk_inputs (walk fuel') (Inputs f pythonOperandOrder)
               ({[root]} ∪ visited))
      end
  end.

(** What a finished walk from [root] guarantees. *)
Definition walk_post (root : FunctionPtr) (visited visited' : gset positive)
    (entered : list positive) : Prop :=
  visited' = visited ∪ list_to_set entered ∧
  root ∈ entered ∧
  NoDup entered ∧
  (∀ a, a ∈ entered → a = root ∨ a ∉ visited) ∧
  (∀ a, a ∈ entered → reachable root a) ∧
  (∀ a, a ∈ entered → is_Some (g !! a)) ∧
  (∀ a b, a ∈ entered → edge a b → b ∈ visited').

(** What a finished loop over [inputs] guarantees. *)
Definition inputs_post (inputs : list Var) (visited visited' : gset positive)
    (entered : list positive) : Prop :=
  visited' = visited ∪ list_to_set entered ∧
  NoDup entered ∧
  (∀ a, a ∈ entered → a ∉ visited) ∧
  (∀ a, a ∈ entered →
        ∃ v o, v ∈ inputs ∧ IsOutput v = true ∧ Owner v = Some o ∧ reachable o a) ∧
  (∀ a, a ∈ entered → is_Some (g !! a)) ∧
  (∀ a b, a ∈ entered → edge a b → b ∈ visited') ∧
  (∀ v, v ∈ inputs → IsOutput v = true → ∃ o, Owner v = Some o ∧ o ∈ visited').
End Reachability.

(** ** Further conditions and sample graphs *)

(** Under [root] there is a Function with an Output input whose owner is
    null or does not exist. *)
Definition dangling_under (g : Graph) (py : bool) (root : FunctionPtr) : Prop :=
  ∃ a f v, reachable g py root a ∧ g !! a = Some f ∧ v ∈ Inputs f py ∧
           IsOutput v = true ∧ ¬ owner_exists g v.

(** The Functions of [L] have an owner set for each of their Output
    inputs. *)
Definition owners_set (g : Graph) (py : bool) (L : list positive) : Prop :=
  ∀ a f v, a ∈ L → g !! a = Some f → v ∈ Inputs f py → IsOutput v = true →
           is_Some (Owner v).

Module Cases.
(** The Function 1 takes the output of a Function 2 that does not exist. *)
Definition broken : Graph :=
  {[ 1%positive := mkFunction [Samples.o1] (λ _, [Samples.o2; Samples.x]) ]}.

(** The two operand orders of 1 differ. *)
Definition swapped : Graph :=
  {[ 1%positive := mkFunction [Samples.o1]
                     (λ py : bool, if py then [Samples.x; Samples.o2]
                                   else [Samples.o2; Samples.x]);
     2%positive := mkFunction [Samples.o2] (λ _, [Samples.w]) ]}.
End Cases.

(** * Properties *)

(** ** Results *)

Lemma result_map_Done {A B} (f : A → B) (r : result A) (b : B) :
  result_map f r = Done b → ∃ a, r = Done a ∧ b = f a.
Proof. destruct r; simpl; intros H; inversion H; eauto. Qed.

Lemma result_rel_map_eq {A B} (f : B → A) (r1 : result A) (r2 : result B) :
  result_rel (λ a b, a = f b) r1 r2 → r1 = result_map f r2.
Proof. destruct r1, r2; simpl; intros H; try done; by subst. Qed.

(** ** The conditions on a graph *)

Lemma well_formed_closed (g : Graph) (py : bool) : well_formed g py → closed g py.
Proof.
  intros (_ & _ & H) a f v Hf Hv Hout.
  destruct (H a f v Hf Hv Hout) as (b & fb & ? & ? & _). exists b. by eauto.
Qed.

(** ** The order of entry *)

Section WalkFacts.
Variable g : Graph.
Variable py : bool.

Lemma walk_inputs_post recurse :
  (∀ o V V' L, recurse o V = Done (V', L) → walk_post g py o V V' L) →
  ∀ inputs V V' L,
    walk_inputs recurse inputs V = Done (V', L) → inputs_post g py inputs V V' L.
Proof.
  intros Hrec. induction inputs as [|v rest IH]; intros V V' L; simpl.
  - intros [= <- <-]. repeat split; try set_solver. constructor.
  - destruct (IsOutput v) eqn:Hout.
    + destruct (Owner v) as [o|] eqn:Hown; [|done].
      destruct (decide (o ∈ V)) as [Hin|Hnin].
      * intros H. apply IH in H as (HV & Hnd & Hfresh & Hreach & Hdom & Hcl & Hall).
        repeat split; try done.
        -- intros a Ha. destruct (Hreach a Ha) as (v' & o' & ? & ? & ? & ?).
           exists v', o'. set_solver.
        -- intros v' [->|Hv']%elem_of_cons Hv'o; [|by eauto].
           exists o. split; [done|]. set_solver.
      * destruct (recurse o V) as [[V1 L1]| |] eqn:Hr; try done.
        intros H. apply result_map_Done in H as ([V2 L2] & H & [= -> ->]).
        apply Hrec in Hr as (HV1 & Ho & Hnd1 & Hfresh1 & Hreach1 & Hdom1 & Hcl1).
        apply IH in H as (HV2 & Hnd2 & Hfresh2 & Hreach2 & Hdom2 & Hcl2 & Hall2).
        simpl in *. subst V1 V2.
        repeat split.
        -- set_solver.
        -- apply NoDup_app. split; [done|]. split; [|done].
           intros a Ha1 Ha2. apply Hfresh2 in Ha2. set_solver.
        -- intros a [Ha|Ha]%elem_of_app.
           ++ destruct (Hfresh1 a Ha); set_solver.
           ++ apply Hfresh2 in Ha. set_solver.
        -- intros a [Ha|Ha]%elem_of_app.
           ++ exists v, o. split; [set_solver|]. by eauto.
           ++ destruct (Hreach2 a Ha) as (v' & o' & ? & ? & ? & ?).
              exists v', o'. set_solver.
        -- intros a [Ha|Ha]%elem_of_app; by eauto.
        -- intros a b [Ha|Ha]%elem_of_app Hab.
           ++ specialize (Hcl1 a b Ha Hab). set_solver.
           ++ by eauto.
        -- intros v' [->|Hv']%elem_of_cons Hv'o; [|by eauto].
           exists o. split; [done|]. set_solver.
    + intros H. apply IH in H as (HV & Hnd & Hfresh & Hreach & Hdom & Hcl & Hall).
      repeat split; try done.
      * intros a Ha. destruct (Hreach a Ha) as (v' & o' & ? & ? & ? & ?).
        exists v', o'. set_solver.
      * intros v' [->|Hv']%elem_of_cons Hv'o; [congruence|by eauto].
Qed.

Lemma walk_walk_post fuel :
  ∀ root V V' L, walk g py fuel root V = Done (V', L) → walk_post g py root V V' L.
Proof.
  induction fuel as [|n IH]; intros root V V' L; simpl; [done|].
  destruct (g !! root) as [f|] eqn:Hf; [|done].
  intros H. apply result_map_Done in H as ([V2 L2] & H & [= -> ->]).
  apply (walk_inputs_post _ IH) in H
    as (HV & Hnd & Hfresh & Hreach & Hdom & Hcl & Hall).
  simpl in *. subst V2. repeat split.
  - set_solver.
  - set_solver.
  - constructor; [|done]. intros Hin. apply Hfresh in Hin. set_solver.
  - intros a [->|Ha]%elem_of_cons; [by left|]. right.
    apply Hfresh in Ha. set_solver.
  - intros a [->|Ha]%elem_of_cons; [apply rtc_refl|].
    destruct (Hreach a Ha) as (v & o & Hv & Hvo & Hown & Hr).
    eapply rtc_l; [|exact Hr]. by exists f, v.
  - intros a [->|Ha]%elem_of_cons; by eauto.
  - intros a b [->|Ha]%elem_of_cons Hab; [|by eauto].
    destruct Hab as (f' & v & Hf' & Hv & Hvo & Hown).
    assert (f' = f) as -> by congruence.
    destruct (Hall v Hv Hvo) as (o & Ho & Hin). congruence.
Qed.

(** A walk from the empty visited set ends with exactly the Functions
    reachable from the root. *)
Lemma walk_reachable fuel root V' L :
  walk g py fuel root ∅ = Done (V', L) →
  V' = list_to_set L ∧ NoDup L ∧ ∀ a, a ∈ L ↔ reachable g py root a.
Proof.
  intros H. apply walk_walk_post in H
    as (HV & Hroot & Hnd & Hfresh & Hreach & Hdom & Hcl).
  assert (V' = list_to_set L) as HV' by set_solver.
  split; [done|]. split; [done|].
  intros a. split; [by auto|].
  revert a. apply (rtc_ind_r (λ a, a ∈ L)); [done|].
  intros y z _ Hyz Hin. specialize (Hcl y z Hin Hyz). set_solver.
Qed.
End WalkFacts.

(** ** Enough fuel *)

Section WalkTotal.
Variable g : Graph.
Variable py : bool.
Hypothesis Hclosed : closed g py.

Lemma walk_inputs_total recurse n :
  (∀ o V V' L, recurse o V = Done (V', L) → walk_post g py o V V' L) →
  (∀ o V, is_Some (g !! o) → size (dom g ∖ ({[o]} ∪ V)) < n →
          ∃ r, recurse o V = Done r) →
  ∀ inputs V,
    (∀ v, v ∈ inputs → IsOutput v = true →
          ∃ b, Owner v = Some b ∧ is_Some (g !! b)) →
    size (dom g ∖ V) ≤ n →
    ∃ r, walk_inputs recurse inputs V = Done r.
Proof.
  intros Hpost Hrec. induction inputs as [|v rest IH]; intros V Hin Hsize; simpl.
  - by eauto.
  - assert (∀ v', v' ∈ rest → IsOutput v' = true →
                  ∃ b, Owner v' = Some b ∧ is_Some (g !! b)) as Hrest.
    { intros v' Hv'. apply Hin. by right. }
    destruct (IsOutput v) eqn:Hout; [|by apply IH].
    destruct (Hin v) as (b & -> & Hb); [by left|done|].
    destruct (decide (b ∈ V)) as [HbV|HbV]; [by apply IH|].
    destruct (Hrec b V Hb) as ([V1 L1] & Hr).
    { eapply Nat.lt_le_trans; [|exact Hsize].
      apply subset_size. apply elem_of_dom in Hb.
      split; [set_solver|]. intros Hsub. specialize (Hsub b). set_solver. }
    rewrite Hr. destruct (Hpost _ _ _ _ Hr) as (HV1 & _).
    destruct (IH V1 Hrest) as (r2 & ->); [|by eauto].
    etrans; [|exact Hsize]. apply subseteq_size. set_solver.
Qed.

Lemma walk_total fuel :
  ∀ root V, is_Some (g !! root) → size (dom g ∖ ({[root]} ∪ V)) < fuel →
            ∃ r, walk g py fuel root V = Done r.
Proof.
  induction fuel as [|n IH]; intros root V [f Hf] Hsize; [lia|]. simpl. rewrite Hf.
  destruct (walk_inputs_total (walk g py n) n) with
    (inputs := Inputs f py) (V := ({[root]} ∪ V : gset positive)) as (r & ->).
  - apply walk_walk_post.
  - exact IH.
  - intros v Hv Hout. by eapply (Hclosed root f).
  - lia.
  - by eauto.
Qed.

(** From the empty visited set, as many units of fuel as there are
    Functions suffice. *)
Lemma walk_total_empty fuel root :
  is_Some (g !! root) → size g ≤ fuel → ∃ r, walk g py fuel root ∅ = Done r.
Proof.
  intros Hroot Hsize. apply walk_total; [done|].
  eapply Nat.lt_le_trans; [|exact Hsize]. rewrite <-size_dom.
  apply subset_size. apply elem_of_dom in Hroot.
  split; [set_solver|]. intros Hsub. specialize (Hsub root). set_solver.
Qed.
End WalkTotal.

(** ** The visitor does not steer the traversal *)

Section VisitorSimulation.
Context {St1 St2 : Type}.
Variable g : Graph.
Variable py pre : bool.
Variable f1 : Var → St1 → St1.
Variable f2 : Var → St2 → St2.
Variable R : St1 → St2 → Prop.
Hypothesis HR : ∀ v s1 s2, R s1 s2 → R (f1 v s1) (f2 v s2).

Let RR (a : gset positive * St1) (b : gset positive * St2) : Prop :=
  a.1 = b.1 ∧ R a.2 b.2.

Lemma visit_outputs_sim outs :
  ∀ s1 s2, R s1 s2 → R (visit_outputs f1 outs s1) (visit_outputs f2 outs s2).
Proof.
  unfold visit_outputs. induction outs as [|v outs IH]; intros s1 s2 Hs; simpl; auto.
Qed.

Lemma TraverseInputs_sim rec1 rec2 :
  (∀ o V s1 s2, R s1 s2 → result_rel RR (rec1 o V s1) (rec2 o V s2)) →
  ∀ inputs V s1 s2, R s1 s2 →
    result_rel RR (TraverseInputs f1 rec1 inputs V s1)
                  (TraverseInputs f2 rec2 inputs V s2).
Proof.
  intros Hrec. induction inputs as [|v rest IH]; intros V s1 s2 Hs; simpl.
  - by split.
  - destruct (IsOutput v); [|by auto].
    destruct (Owner v) as [o|]; [|done].
    destruct (decide (o ∈ V)); [by auto|].
    specialize (Hrec o V s1 s2 Hs).
    destruct (rec1 o V s1) as [[V1 s1']| |], (rec2 o V s2) as [[V2 s2']| |];
      try done.
    destruct Hrec as [Hv Hs']; simpl in *; subst. by apply IH.
Qed.

Lemma TraverseVariables_sim fuel :
  ∀ root V s1 s2, R s1 s2 →
    result_rel RR (TraverseVariables g f1 py pre fuel root V s1)
                  (TraverseVariables g f2 py pre fuel root V s2).
Proof.
  induction fuel as [|n IH]; intros root V s1 s2 Hs; simpl; [done|].
  destruct (g !! root) as [f|]; [|done].
  pose proof (TraverseInputs_sim _ _ IH (Inputs f py) ({[root]} ∪ V)
    (if pre then visit_outputs f1 (InitOutputs f) s1 else s1)
    (if pre then visit_outputs f2 (InitOutputs f) s2 else s2)) as H.
  destruct (TraverseInputs f1 _ _ _ _) as [[V1 s1']| |],
           (TraverseInputs f2 _ _ _ _) as [[V2 s2']| |];
    try (by apply H; destruct pre; [apply visit_outputs_sim|]).
  destruct H as [Hv Hs']; [by destruct pre; [apply visit_outputs_sim|]|].
  split; [done|]. simpl in *. destruct pre; [done|by apply visit_outputs_sim].
Qed.
End VisitorSimulation.

Lemma foldl_record_visit (t0 t : list Var) :
  foldl (λ s v, record_visit v s) t0 t = t0 ++ t.
Proof.
  revert t0. induction t as [|v t IH]; intros t0; simpl.
  - by rewrite app_nil_r.
  - rewrite IH. unfold record_visit. by rewrite <-app_assoc.
Qed.

(** The state a visitor ends in is the fold of the visitor over the
    sequence of its calls. *)
Lemma TraverseVariables_visits {St} (g : Graph) (functor : Var → St → St)
    (py pre : bool) (fuel : nat) (root : FunctionPtr) (V : gset positive) (s : St) :
  TraverseVariables g functor py pre fuel root V s =
  result_map (λ r, (r.1, foldl (λ s v, functor v s) s r.2)) (visits g py pre fuel root V).
Proof.
  pose proof (TraverseVariables_sim g py pre functor record_visit
    (λ s1 t, s1 = foldl (λ s v, functor v s) s t)) as H.
  specialize (H ltac:(intros v s1 t ->; unfold record_visit; by rewrite foldl_app)
                fuel root V s [] eq_refl).
  unfold visits.
  destruct (TraverseVariables g functor _ _ _ _ _ _) as [[V1 s1]| |],
           (TraverseVariables g record_visit _ _ _ _ _ _) as [[V2 t]| |];
    simpl in *; try done; [|by subst].
  destruct H as [-> ->]. done.
Qed.

Lemma TraverseVariables_record_acc (g : Graph) (py pre : bool) (fuel : nat)
    (root : FunctionPtr) (V : gset positive) (t0 : list Var) :
  TraverseVariables g record_visit py pre fuel root V t0 =
  result_map (λ r, (r.1, t0 ++ r.2)) (visits g py pre fuel root V).
Proof.
  rewrite TraverseVariables_visits. destruct (visits _ _ _ _ _ _) as [[V1 t]| |]; simpl;
    by rewrite ?foldl_record_visit.
Qed.

(** ** The visits of a traversal, by the Functions it enters *)

Section VisitsWalk.
Variable g : Graph.
Variable py pre : bool.

Let by_function (a : gset positive * list Var) (b : gset positive * list positive) :=
  a.1 = b.1 ∧ a.2 ≡ₚ b.2 ≫= vars_of g py.

Lemma TraverseInputs_walk n :
  (∀ o V, result_rel by_function (visits g py pre n o V) (walk g py n o V)) →
  ∀ inputs V t0,
    result_rel
      (λ a b, a.1 = b.1 ∧
              ∃ t, a.2 = t0 ++ t ∧
                   t ≡ₚ filter (λ v, IsOutput v = false) inputs ++ b.2 ≫= vars_of g py)
      (TraverseInputs record_visit (TraverseVariables g record_visit py pre n)
         inputs V t0)
      (walk_inputs (walk g py n) inputs V).
Proof.
  intros Hrec. unfold by_function in Hrec.
  induction inputs as [|v rest IH]; intros V t0; simpl.
  - split; [done|]. exists []. by rewrite app_nil_r.
  - destruct (IsOutput v) eqn:Hout.
    + rewrite filter_cons_False by congruence.
      destruct (Owner v) as [o|]; [|done].
      destruct (decide (o ∈ V)); [by apply IH|].
      rewrite TraverseVariables_record_acc. specialize (Hrec o V).
      destruct (visits g py pre n o V) as [[V1 t1]| |],
               (walk g py n o V) as [[V1' L1]| |]; simpl in *; try done.
      destruct Hrec as [<- Ht1]. simpl in *.
      specialize (IH V1 (t0 ++ t1)).
      destruct (TraverseInputs _ _ rest V1 _) as [[V2 t2]| |],
               (walk_inputs _ rest V1) as [[V2' L2]| |]; simpl in *; try done.
      destruct IH as [<- (t & -> & Ht)]. split; [done|].
      exists (t1 ++ t). split; [by rewrite app_assoc|].
      rewrite bind_app, Ht, Ht1.
      rewrite !app_assoc. apply Permutation_app_tail, Permutation_app_comm.
    + rewrite filter_cons_True by done.
      specialize (IH V (record_visit v t0)).
      destruct (TraverseInputs _ _ rest V _) as [[V2 t2]| |],
               (walk_inputs _ rest V) as [[V2' L2]| |]; simpl in *; try done.
      destruct IH as [<- (t & -> & Ht)]. split; [done|].
      exists (v :: t). unfold record_visit. split; [by rewrite <-app_assoc|].
      by rewrite Ht.
Qed.

Lemma visits_walk fuel :
  ∀ root V, result_rel by_function (visits g py pre fuel root V) (walk g py fuel root V).
Proof.
  unfold by_function.
  induction fuel as [|n IH]; intros root V; unfold visits; simpl; [done|].
  destruct (g !! root) as [f|] eqn:Hf; [|done].
  pose proof (TraverseInputs_walk n IH (Inputs f py) ({[root]} ∪ V)
    (if pre then visit_outputs record_visit (InitOutputs f) [] else [])) as H.
  destruct (TraverseInputs _ _ _ _ _) as [[V2 t2]| |],
           (walk_inputs _ _ _) as [[V2' L2]| |]; simpl in *; try done.
  destruct H as [<- (t & -> & Ht)]. split; [done|]. simpl.
  unfold vars_of at 1. rewrite Hf. unfold visit_outputs.
  destruct pre; rewrite !foldl_record_visit; simpl.
  - rewrite Ht. by rewrite app_assoc.
  - rewrite Ht, <-(app_assoc (InitOutputs f)). apply Permutation_app_comm.
Qed.
End VisitsWalk.

(** ** The collection of Functions, by the Functions it enters *)

Section CollectWalk.
Context {St : Type}.
Variable g : Graph.
Variable functor : FunctionPtr → St → St.

Let folded (s : St) (r : gset positive * list positive) : gset positive * St :=
  (r.1, foldl (λ s f, functor f s) s r.2).

Lemma TraverseFunctionInputs_walk recurse recurse0 :
  (∀ o V s, recurse o V s = result_map (folded s) (recurse0 o V)) →
  ∀ inputs V s,
    TraverseFunctionInputs recurse inputs V s =
    result_map (folded s) (walk_inputs recurse0 inputs V).
Proof.
  intros Hrec. induction inputs as [|v rest IH]; intros V s; simpl; [done|].
  destruct (IsOutput v); [|by apply IH].
  destruct (Owner v) as [o|]; [|done].
  destruct (decide (o ∈ V)); [by apply IH|].
  rewrite Hrec. destruct (recurse0 o V) as [[V1 L1]| |]; simpl; try done.
  rewrite IH. destruct (walk_inputs recurse0 rest V1) as [[V2 L2]| |]; simpl; try done.
  unfold folded. simpl. by rewrite foldl_app.
Qed.

Lemma PreorderTraverseFunctions_walk fuel :
  ∀ root V s,
    PreorderTraverseFunctions g functor fuel root V s =
    result_map (folded s) (walk g false fuel root V).
Proof.
  induction fuel as [|n IH]; intros root V s; simpl; [done|].
  destruct (g !! root) as [f|]; [|done].
  rewrite (TraverseFunctionInputs_walk _ _ IH).
  by destruct (walk_inputs _ _ _) as [[V2 L2]| |].
Qed.
End CollectWalk.

Lemma Collect_walk (g : Graph) (fuel : nat) (root : FunctionPtr) (V : gset positive) :
  Collect g fuel root V = result_map fst (walk g false fuel root V).
Proof.
  unfold Collect. rewrite PreorderTraverseFunctions_walk.
  by destruct (walk _ _ _ _ _) as [[V2 L2]| |].
Qed.

Lemma foldl_record_function (t0 t : list positive) :
  foldl (λ s f, record_function f s) t0 t = t0 ++ t.
Proof.
  revert t0. induction t as [|v t IH]; intros t0; simpl.
  - by rewrite app_nil_r.
  - rewrite IH. unfold record_function. by rewrite <-app_assoc.
Qed.

(** ** Termination and the visits of a whole traversal *)

Lemma visits_total (g : Graph) (py pre : bool) (fuel : nat) (root : FunctionPtr) :
  closed g py → is_Some (g !! root) → size g ≤ fuel →
  ∃ V t L, visits g py pre fuel root ∅ = Done (V, t) ∧
           walk g py fuel root ∅ = Done (V, L) ∧
           t ≡ₚ L ≫= vars_of g py.
Proof.
  intros Hcl Hroot Hsize.
  destruct (walk_total_empty g py Hcl fuel root Hroot Hsize) as ([V L] & Hw).
  pose proof (visits_walk g py pre fuel root ∅) as H. rewrite Hw in H.
  destruct (visits g py pre fuel root ∅) as [[V1 t]| |]; simpl in H; try done.
  destruct H as [-> Ht]. by exists V, t, L.
Qed.

(** C8: on a finite graph in which every owner exists, TraverseVariables
    returns for every visitor, in both orders, as soon as the fuel is at
    least the number of Functions; cycles and sharing do not matter.  The
    Functions it enters form a duplicate-free list, the visited set it
    ends with, and the visitor calls are those made while entering each of
    them, once. *)
Theorem TraverseVariables_terminates {St} (g : Graph) (functor : Var → St → St)
    (py pre : bool) (fuel : nat) (root : FunctionPtr) (s : St) :
  closed g py → is_Some (g !! root) → size g ≤ fuel →
  ∃ V t L,
    TraverseVariables0 g functor py pre fuel root s =
      Done (V, foldl (λ s v, functor v s) s t) ∧
    NoDup L ∧ V = list_to_set L ∧ t ≡ₚ L ≫= vars_of g py.
Proof.
  intros Hcl Hroot Hsize.
  destruct (visits_total g py pre fuel root Hcl Hroot Hsize) as (V & t & L & Hv & Hw & Ht).
  exists V, t, L. unfold TraverseVariables0. rewrite TraverseVariables_visits, Hv.
  split; [done|]. apply walk_reachable in Hw as (? & ? & _). done.
Qed.

Lemma TraverseVariables_terminates_witness :
  ∃ V t L,
    TraverseVariables0 Samples.cycle record_visit false true 2 1%positive [] =
      Done (V, foldl (λ s v, record_visit v s) [] t) ∧
    NoDup L ∧ V = list_to_set L ∧ t ≡ₚ L ≫= vars_of Samples.cycle false.
Proof.
  apply (TraverseVariables_terminates Samples.cycle record_visit false true 2 1%positive []).
  - apply (bool_decide_unpack _). by vm_compute.
  - apply (bool_decide_unpack _). by vm_compute.
  - vm_compute. lia.
Defined.

(** ** Create and Collect *)

(** C1: the composite that Create returns owns exactly the Functions
    reachable from the root along Output-owner edges; the visitor of the
    collection is called on each of them once, shared ones included. *)
Theorem Create_owns_reachable (g : Graph) (fuel : nat) (root : FunctionPtr) :
  closed g false → is_Some (g !! root) → size g ≤ fuel →
  ∃ composite entered,
    Create g fuel root = Done composite ∧
    m_rootFunction composite = root ∧
    (∀ a, a ∈ m_allPrimitiveFunctions composite ↔ reachable g false root a) ∧
    PreorderTraverseFunctions g record_function fuel root ∅ [] =
      Done (m_allPrimitiveFunctions composite, entered) ∧
    NoDup entered ∧
    (∀ a, a ∈ entered ↔ a ∈ m_allPrimitiveFunctions composite).
Proof.
  intros Hcl Hroot Hsize.
  destruct (walk_total_empty g false Hcl fuel root Hroot Hsize) as ([V L] & Hw).
  destruct (walk_reachable _ _ _ _ _ _ Hw) as (HV & Hnd & Hreach).
  exists (mkComposite root V [] ∅), L. unfold Create.
  rewrite Collect_walk, PreorderTraverseFunctions_walk, Hw. simpl.
  rewrite foldl_record_function. repeat split; try done.
  - intros Ha. apply Hreach. set_solver.
  - intros Ha. apply Hreach in Ha. set_solver.
  - set_solver.
  - set_solver.
Qed.

Lemma Create_owns_reachable_witness :
  ∃ composite entered,
    Create Samples.diamond 4 1%positive = Done composite ∧
    m_rootFunction composite = 1%positive ∧
    (∀ a, a ∈ m_allPrimitiveFunctions composite ↔
          reachable Samples.diamond false 1%positive a) ∧
    PreorderTraverseFunctions Samples.diamond record_function 4 1%positive ∅ [] =
      Done (m_allPrimitiveFunctions composite, entered) ∧
    NoDup entered ∧
    (∀ a, a ∈ entered ↔ a ∈ m_allPrimitiveFunctions composite).
Proof.
  apply (Create_owns_reachable Samples.diamond 4 1%positive).
  - apply (bool_decide_unpack _). by vm_compute.
  - apply (bool_decide_unpack _). by vm_compute.
  - vm_compute. lia.
Defined.

(** ** Which Variables are visited, and how often *)

Section VisitedVariables.
Variable g : Graph.
Variable py : bool.
Hypothesis Hwf : well_formed g py.

Lemma filter_output_nonoutput (l : list Var) :
  filter (λ v, IsOutput v = true) (filter (λ v, IsOutput v = false) l) = [].
Proof.
  induction l as [|v l IH]; [done|].
  destruct (IsOutput v) eqn:Hv.
  - by rewrite (filter_cons_False (λ v, IsOutput v = false)) by congruence.
  - rewrite (filter_cons_True (λ v, IsOutput v = false)) by done.
    by rewrite filter_cons_False by congruence.
Qed.

Lemma output_in_vars_of a v :
  v ∈ vars_of g py a → IsOutput v = true →
  Owner v = Some a ∧ ∃ f, g !! a = Some f ∧ v ∈ InitOutputs f.
Proof.
  unfold vars_of. destruct (g !! a) as [f|] eqn:Hf; [|by intros ?%elem_of_nil].
  intros [Hv|Hv]%elem_of_app Hout.
  - destruct Hwf as (H1 & _). destruct (H1 a f v Hf Hv). by eauto.
  - apply list_elem_of_filter in Hv as [? _]. congruence.
Qed.

Lemma NoDup_outputs_vars_of a :
  NoDup (filter (λ v, IsOutput v = true) (vars_of g py a)).
Proof.
  unfold vars_of. destruct (g !! a) as [f|] eqn:Hf; [|constructor].
  rewrite filter_app, filter_output_nonoutput, app_nil_r.
  apply NoDup_filter. destruct Hwf as (_ & H2 & _). by eapply H2.
Qed.

(** Over distinct Functions, no Output shows up twice. *)
Lemma NoDup_outputs_bind (L : list positive) :
  NoDup L → NoDup (filter (λ v, IsOutput v = true) (L ≫= vars_of g py)).
Proof.
  induction 1 as [|a L Ha Hnd IH]; simpl; [constructor|].
  rewrite filter_app. apply NoDup_app. split; [apply NoDup_outputs_vars_of|].
  split; [|done].
  intros v [Hout Hv]%list_elem_of_filter [_ Hv']%list_elem_of_filter.
  apply list_elem_of_bind in Hv' as (a' & Hv' & Ha').
  destruct (output_in_vars_of a v Hv Hout) as [Ho _].
  destruct (output_in_vars_of a' v Hv' Hout) as [Ho' _].
  congruence.
Qed.

Lemma elem_of_bind_vars_of root (L : list positive) v :
  (∀ a, a ∈ L ↔ reachable g py root a) →
  v ∈ L ≫= vars_of g py ↔ reachable_var g py root v.
Proof.
  intros HL. rewrite list_elem_of_bind. split.
  - intros (a & Hv & Ha). apply HL in Ha. unfold vars_of in Hv.
    destruct (g !! a) as [f|] eqn:Hf; [|by apply elem_of_nil in Hv].
    exists a, f. split; [done|]. split; [done|].
    apply elem_of_app in Hv as [Hv|Hv]; [by left|right].
    by apply list_elem_of_filter in Hv as [_ ?].
  - intros (a & f & Ha & Hf & [Hv|Hv]).
    + exists a. split; [|by apply HL]. unfold vars_of. rewrite Hf. set_solver.
    + destruct (IsOutput v) eqn:Hout.
      * destruct Hwf as (_ & _ & H3).
        destruct (H3 a f v Hf Hv Hout) as (b & fb & Hb & Hfb & Hvb).
        exists b. split.
        -- unfold vars_of. rewrite Hfb. set_solver.
        -- apply HL. eapply rtc_r; [exact Ha|]. by exists f, v.
      * exists a. split; [|by apply HL]. unfold vars_of. rewrite Hf.
        apply elem_of_app. right. by apply list_elem_of_filter.
Qed.
End VisitedVariables.

(** C2, as the code has it: on a well-formed graph, in both orders, the
    visitor is called on exactly the Variables of the Functions reachable
    from the root, none is skipped; an Output is visited once; a Variable
    that is not an Output is visited once for each place it takes in the
    input list of a reachable Function. *)
Theorem TraverseVariables_visits_reachable (g : Graph) (py pre : bool) (fuel : nat)
    (root : FunctionPtr) :
  well_formed g py → is_Some (g !! root) → size g ≤ fuel →
  ∃ V t L,
    (∀ (St : Type) (functor : Var → St → St) (s : St),
       TraverseVariables0 g functor py pre fuel root s =
         Done (V, foldl (λ s v, functor v s) s t)) ∧
    (∀ v, v ∈ t ↔ reachable_var g py root v) ∧
    NoDup (filter (λ v, IsOutput v = true) t) ∧
    NoDup L ∧ (∀ a, a ∈ L ↔ reachable g py root a) ∧
    t ≡ₚ L ≫= vars_of g py.
Proof.
  intros Hwf Hroot Hsize.
  destruct (visits_total g py pre fuel root (well_formed_closed g py Hwf) Hroot Hsize)
    as (V & t & L & Hv & Hw & Ht).
  destruct (walk_reachable _ _ _ _ _ _ Hw) as (HV & Hnd & Hreach).
  exists V, t, L. split; [|split; [|split; [|done]]].
  - intros St functor s. unfold TraverseVariables0.
    by rewrite TraverseVariables_visits, Hv.
  - intros v. rewrite Ht. by apply elem_of_bind_vars_of.
  - rewrite Ht. by apply NoDup_outputs_bind.
Qed.

Lemma TraverseVariables_visits_reachable_witness :
  ∃ V t L,
    (∀ (St : Type) (functor : Var → St → St) (s : St),
       TraverseVariables0 Samples.diamond functor false false 4 1%positive s =
         Done (V, foldl (λ s v, functor v s) s t)) ∧
    (∀ v, v ∈ t ↔ reachable_var Samples.diamond false 1%positive v) ∧
    NoDup (filter (λ v, IsOutput v = true) t) ∧
    NoDup L ∧ (∀ a, a ∈ L ↔ reachable Samples.diamond false 1%positive a) ∧
    t ≡ₚ L ≫= vars_of Samples.diamond false.
Proof.
  apply (TraverseVariables_visits_reachable Samples.diamond false false 4 1%positive).
  - apply (bool_decide_unpack _). by vm_compute.
  - apply (bool_decide_unpack _). by vm_compute.
  - vm_compute. lia.
Defined.

(** C2 as stated fails: in the diamond, which is well formed, the
    Parameter [w] is an input of three Functions, and the visitor is
    called on it three times, in pre-order and in post-order. *)
Lemma shared_parameter_visited_thrice :
  well_formed Samples.diamond false ∧
  reachable_var Samples.diamond false 1%positive Samples.w ∧
  ∀ pre, ∃ t,
    result_map snd (visits Samples.diamond false pre 4 1%positive ∅) = Done t ∧
    length (filter (λ v, v = Samples.w) t) = 3 ∧
    ¬ NoDup t.
Proof.
  split; [apply (bool_decide_unpack _); by vm_compute|]. split.
  - exists 2%positive, (mkFunction [Samples.o2] (λ _, [Samples.o4; Samples.w])).
    split; [|split; [by vm_compute|right; set_solver]].
    apply rtc_once. exists (mkFunction [Samples.o1] (λ _, [Samples.o2; Samples.o3])), Samples.o2.
    split; [by vm_compute|]. split; [set_solver|]. done.
  - intros [|]; eexists; (split; [vm_compute; reflexivity|]);
      (split; [by vm_compute|]); apply (bool_decide_unpack _); by vm_compute.
Qed.

(** ** DetermineInputs *)

Lemma first_seen_elem (l : list Var) (v : Var) : v ∈ first_seen l ↔ v ∈ l.
Proof.
  induction l as [|a l IH]; simpl; [done|].
  rewrite !elem_of_cons, list_elem_of_filter, IH.
  destruct (decide (v = a)); naive_solver.
Qed.

Lemma first_seen_NoDup (l : list Var) : NoDup (first_seen l).
Proof.
  induction l as [|a l IH]; simpl; constructor.
  - rewrite list_elem_of_filter. naive_solver.
  - by apply NoDup_filter.
Qed.

Lemma first_seen_snoc (l : list Var) (v : Var) :
  first_seen (l ++ [v]) = first_seen l ++ (if decide (v ∈ l) then [] else [v]).
Proof.
  induction l as [|a l IH]; simpl; [done|].
  rewrite IH, filter_app. f_equal. f_equal.
  destruct (decide (v ∈ l)) as [Hin|Hin], (decide (v ∈ a :: l)) as [Hin'|Hin'].
  - done.
  - destruct Hin'. by right.
  - apply elem_of_cons in Hin' as [->|?]; [|done].
    by rewrite filter_cons_False by naive_solver.
  - apply not_elem_of_cons in Hin' as [? _]. by rewrite filter_cons_True by done.
Qed.

Lemma first_seen_before (t1 t2 : list Var) (x : Var) :
  x ∉ t1 → ∃ l2, first_seen (t1 ++ x :: t2) = first_seen t1 ++ x :: l2.
Proof.
  induction t1 as [|a t1 IH]; simpl; intros Hx; [by eauto|].
  apply not_elem_of_cons in Hx as [Hne Hx].
  destruct (IH Hx) as (l2 & ->).
  exists (filter (λ v', v' ≠ a) l2).
  by rewrite filter_app, filter_cons_True by done.
Qed.

Lemma NoDup_split_inj {A} (l1 l2 l1' l2' : list A) (x : A) :
  NoDup (l1 ++ x :: l2) → l1 ++ x :: l2 = l1' ++ x :: l2' → l1 = l1'.
Proof.
  revert l1'. induction l1 as [|a l1 IH]; intros l1' Hnd Heq.
  - destruct l1' as [|b l1']; [done|]. simpl in *. injection Heq as <- ->.
    apply NoDup_cons in Hnd as [Hx _]. set_solver.
  - simpl in *. apply NoDup_cons in Hnd as [Ha Hnd].
    destruct l1' as [|b l1']; simpl in *; injection Heq as -> Heq.
    + set_solver.
    + f_equal. by apply IH.
Qed.

(** The state the lambda of DetermineInputs ends in, by the sequence of
    Variables it was called on. *)
Lemma DetermineInputs_visit_fold (t : list Var) :
  foldl (λ st var, DetermineInputs_visit var st) ([], ∅) t =
  (first_seen (filter (λ v, IsOutput v = false) t),
   list_to_set (first_seen (filter (λ v, IsOutput v = false) t))).
Proof.
  induction t as [|v t IH] using rev_ind; [done|].
  rewrite foldl_app, IH, filter_app. simpl. unfold DetermineInputs_visit.
  destruct (IsOutput v) eqn:Hv; simpl.
  - rewrite filter_cons_False by congruence. by rewrite filter_nil, app_nil_r.
  - rewrite filter_cons_True by done. rewrite filter_nil, first_seen_snoc.
    destruct (decide (v ∈ filter (λ v0, IsOutput v0 = false) t)) as [Hin|Hin].
    + rewrite bool_decide_eq_false_2, app_nil_r; [done|].
      rewrite elem_of_list_to_set, first_seen_elem. by auto.
    + rewrite bool_decide_eq_true_2.
      * f_equal. rewrite list_to_set_snoc_L. set_solver.
      * by rewrite elem_of_list_to_set, first_seen_elem.
Qed.

Lemma DetermineInputs_visits (g : Graph) (fuel : nat) (root : FunctionPtr)
    (V : gset positive) (py : bool) :
  DetermineInputs g fuel root V py =
  result_map (λ r, (r.1, first_seen (filter (λ v, IsOutput v = false) r.2)))
    (visits g py true fuel root V).
Proof.
  unfold DetermineInputs. rewrite TraverseVariables_visits.
  destruct (visits g py true fuel root V) as [[V' t]| |]; simpl; [|done..].
  by rewrite DetermineInputs_visit_fold.
Qed.

(** C3: the list DetermineInputs returns holds the Variables that are
    not Outputs among the pre-order visits from the root, each once, each
    where it is first seen: the ones listed before [x] are the ones
    visited before the first visit of [x]. *)
Theorem DetermineInputs_first_seen (g : Graph) (py : bool) (fuel : nat)
    (root : FunctionPtr) :
  closed g py → is_Some (g !! root) → size g ≤ fuel →
  ∃ V t inputs,
    PreorderTraverseVariables g fuel root record_visit py [] = Done (V, t) ∧
    DetermineInputs g fuel root ∅ py = Done (V, inputs) ∧
    inputs = first_seen (filter (λ v, IsOutput v = false) t) ∧
    NoDup inputs ∧
    (∀ v, v ∈ inputs ↔ v ∈ t ∧ IsOutput v = false) ∧
    (∀ l1 x l2, inputs = l1 ++ x :: l2 →
       ∃ t1 t2, t = t1 ++ x :: t2 ∧ x ∉ t1 ∧
                ∀ y, y ∈ l1 ↔ y ∈ t1 ∧ IsOutput y = false).
Proof.
  intros Hcl Hroot Hsize.
  destruct (visits_total g py true fuel root Hcl Hroot Hsize) as (V & t & L & Hv & _ & _).
  exists V, t, (first_seen (filter (λ v, IsOutput v = false) t)).
  split; [exact Hv|]. split; [by rewrite DetermineInputs_visits, Hv|].
  split; [done|]. split; [apply first_seen_NoDup|].
  assert (∀ v, v ∈ first_seen (filter (λ v, IsOutput v = false) t) ↔
               v ∈ t ∧ IsOutput v = false) as Hmem.
  { intros v. rewrite first_seen_elem, list_elem_of_filter. naive_solver. }
  split; [exact Hmem|].
  intros l1 x l2 Heq.
  assert (x ∈ t ∧ IsOutput x = false) as [Hx Hxo].
  { apply Hmem. rewrite Heq. set_solver. }
  apply list_elem_of_split_l in Hx as (t1 & t2 & -> & Hx).
  exists t1, t2. split; [done|]. split; [done|].
  rewrite filter_app, filter_cons_True in Heq by done.
  destruct (first_seen_before (filter (λ v, IsOutput v = false) t1)
              (filter (λ v, IsOutput v = false) t2) x) as (l2' & Hfs).
  { rewrite list_elem_of_filter. naive_solver. }
  assert (l1 = first_seen (filter (λ v, IsOutput v = false) t1)) as ->.
  { symmetry. eapply (NoDup_split_inj _ l2' _ l2 x).
    - rewrite <-Hfs. apply first_seen_NoDup.
    - by rewrite <-Hfs. }
  intros y. rewrite first_seen_elem, list_elem_of_filter. naive_solver.
Qed.

Lemma DetermineInputs_first_seen_witness :
  ∃ V t inputs,
    PreorderTraverseVariables Samples.diamond 4 1%positive record_visit false [] =
      Done (V, t) ∧
    DetermineInputs Samples.diamond 4 1%positive ∅ false = Done (V, inputs) ∧
    inputs = first_seen (filter (λ v, IsOutput v = false) t) ∧
    NoDup inputs ∧
    (∀ v, v ∈ inputs ↔ v ∈ t ∧ IsOutput v = false) ∧
    (∀ l1 x l2, inputs = l1 ++ x :: l2 →
       ∃ t1 t2, t = t1 ++ x :: t2 ∧ x ∉ t1 ∧
                ∀ y, y ∈ l1 ↔ y ∈ t1 ∧ IsOutput y = false).
Proof.
  apply (DetermineInputs_first_seen Samples.diamond false 4 1%positive).
  - apply (bool_decide_unpack _). by vm_compute.
  - apply (bool_decide_unpack _). by vm_compute.
  - vm_compute. lia.
Defined.

(** ** Pre-order against post-order *)

Section PrePost.
Variable g : Graph.
Variable py : bool.

(** The relation kept between a pre-order and a post-order run: the
    pre-order one is ahead by the outputs in [extra]. *)
Let ahead (extra : list Var) (a b : gset positive * list Var) : Prop :=
  a.1 = b.1 ∧ a.2 ≡ₚ extra ++ b.2.

Lemma TraverseInputs_pre_post rec1 rec2 :
  (∀ extra o V t1 t2, t1 ≡ₚ extra ++ t2 →
     result_rel (ahead extra) (rec1 o V t1) (rec2 o V t2)) →
  ∀ inputs extra V t1 t2, t1 ≡ₚ extra ++ t2 →
    result_rel (ahead extra)
      (TraverseInputs record_visit rec1 inputs V t1)
      (TraverseInputs record_visit rec2 inputs V t2).
Proof.
  intros Hrec. induction inputs as [|v rest IH]; intros extra V t1 t2 Ht; simpl.
  - by split.
  - destruct (IsOutput v).
    + destruct (Owner v) as [o|]; [|done].
      destruct (decide (o ∈ V)); [by apply IH|].
      specialize (Hrec extra o V t1 t2 Ht).
      destruct (rec1 o V t1) as [[V1 t1']| |], (rec2 o V t2) as [[V2 t2']| |];
        try done.
      destruct Hrec as [Hv Ht']; simpl in *; subst. by apply IH.
    + apply IH. unfold record_visit. by rewrite Ht, app_assoc.
Qed.

Lemma TraverseVariables_pre_post fuel :
  ∀ extra root V t1 t2, t1 ≡ₚ extra ++ t2 →
    result_rel (ahead extra)
      (TraverseVariables g record_visit py true fuel root V t1)
      (TraverseVariables g record_visit py false fuel root V t2).
Proof.
  induction fuel as [|n IH]; intros extra root V t1 t2 Ht; simpl; [done|].
  destruct (g !! root) as [f|]; [|done].
  assert (t1 ++ InitOutputs f ≡ₚ (InitOutputs f ++ extra) ++ t2) as Ht0.
  { rewrite Ht. etrans; [apply Permutation_app_comm|]. by rewrite app_assoc. }
  pose proof (TraverseInputs_pre_post _ _ IH (Inputs f py) (InitOutputs f ++ extra)
    ({[root]} ∪ V) (t1 ++ InitOutputs f) t2 Ht0) as H.
  unfold visit_outputs. rewrite foldl_record_visit.
  destruct (TraverseInputs _ _ _ _ (t1 ++ _)) as [[V1 t1']| |],
           (TraverseInputs _ _ _ _ t2) as [[V2 t2']| |]; try done.
  unfold ahead in *. simpl in *. destruct H as [-> Ht'].
  split; [done|]. rewrite foldl_record_visit, Ht', <-!app_assoc.
  etrans; [apply Permutation_app_comm|]. by rewrite <-app_assoc.
Qed.
End PrePost.

Lemma TraverseInputs_record_acc (g : Graph) (py pre : bool) (n : nat)
    (inputs : list Var) (V : gset positive) (t0 : list Var) :
  TraverseInputs record_visit (TraverseVariables g record_visit py pre n) inputs V t0 =
  result_map (λ r, (r.1, t0 ++ r.2))
    (TraverseInputs record_visit (TraverseVariables g record_visit py pre n) inputs V []).
Proof.
  assert (∀ v (s1 s2 : list Var), s1 = t0 ++ s2 →
            record_visit v s1 = t0 ++ record_visit v s2) as HR.
  { intros v s1 s2 ->. unfold record_visit. by rewrite app_assoc. }
  pose proof (TraverseInputs_sim record_visit record_visit (λ s1 s2, s1 = t0 ++ s2) HR
    (TraverseVariables g record_visit py pre n)
    (TraverseVariables g record_visit py pre n)
    (TraverseVariables_sim g py pre record_visit record_visit _ HR n)
    inputs V t0 []) as H.
  specialize (H ltac:(simpl; by rewrite app_nil_r)).
  destruct (TraverseInputs _ _ inputs V t0) as [[V1 t1]| |],
           (TraverseInputs _ _ inputs V []) as [[V2 t2]| |]; simpl in *; try done.
  - by destruct H as [-> ->].
  - by subst.
Qed.

(** C7: for every graph and either operand order, the pre-order and
    the post-order traversal end the same way, and when they return they
    have the same visited Functions and have handed the same Variables to
    the visitor, each as often; the pre-order run calls the visitor on the
    outputs of the Function before the loop over its inputs, the
    post-order run after it. *)
Theorem pre_post_same_variables (g : Graph) (py : bool) (fuel : nat)
    (root : FunctionPtr) (V : gset positive) :
  result_rel
    (λ a b,
       a.1 = b.1 ∧ a.2 ≡ₚ b.2 ∧ (∀ v, v ∈ a.2 ↔ v ∈ b.2) ∧
       ∃ f n body_pre body_post,
         g !! root = Some f ∧ fuel = S n ∧
         TraverseInputs record_visit (TraverseVariables g record_visit py true n)
           (Inputs f py) ({[root]} ∪ V) [] = Done (a.1, body_pre) ∧
         TraverseInputs record_visit (TraverseVariables g record_visit py false n)
           (Inputs f py) ({[root]} ∪ V) [] = Done (b.1, body_post) ∧
         a.2 = InitOutputs f ++ body_pre ∧
         b.2 = body_post ++ InitOutputs f ∧
         body_pre ≡ₚ body_post)
    (TraverseVariables g record_visit py true fuel root V [])
    (TraverseVariables g record_visit py false fuel root V []).
Proof.
  destruct fuel as [|n]; simpl; [done|].
  destruct (g !! root) as [f|] eqn:Hf; [|done].
  unfold visit_outputs. rewrite foldl_record_visit, TraverseInputs_record_acc. simpl.
  pose proof (TraverseInputs_pre_post _ _ (TraverseVariables_pre_post g py n)
    (Inputs f py) [] ({[root]} ∪ V) [] [] (reflexivity _)) as H.
  destruct (TraverseInputs _ (TraverseVariables g record_visit py true n) _ _ [])
    as [[V1 t1]| |] eqn:H1,
    (TraverseInputs _ (TraverseVariables g record_visit py false n) _ _ [])
    as [[V2 t2]| |] eqn:H2; simpl in *; try done.
  destruct H as [-> Ht]. rewrite foldl_record_visit.
  assert (InitOutputs f ++ t1 ≡ₚ t2 ++ InitOutputs f) as Hp.
  { rewrite Ht. apply Permutation_app_comm. }
  split; [done|]. split; [done|]. split; [intros v; by rewrite Hp|].
  by exists f, n, t1, t2.
Qed.

(** An Input read twice by one Function is handed to the visitor twice. *)
Example visits_square :
  result_map snd (visits Samples.square false true 1 1%positive ∅) =
    Done [Samples.o1; Samples.x; Samples.x].
Proof. by vm_compute. Qed.

(** The two orders on the diamond. *)
Example pre_post_diamond :
  result_map snd (visits Samples.diamond false true 4 1%positive ∅) =
    Done [Samples.o1; Samples.o2; Samples.o4; Samples.x; Samples.w; Samples.w;
          Samples.o3; Samples.w] ∧
  result_map snd (visits Samples.diamond false false 4 1%positive ∅) =
    Done [Samples.x; Samples.w; Samples.o4; Samples.w; Samples.o2; Samples.w;
          Samples.o3; Samples.o1].
Proof. split; by vm_compute. Qed.

(** ** OnPlaceholdersReplaced *)

Lemma Collect_reachable (g : Graph) (fuel : nat) (root : FunctionPtr) :
  closed g false → is_Some (g !! root) → size g ≤ fuel →
  ∃ functions, Collect g fuel root ∅ = Done functions ∧
               ∀ a, a ∈ functions ↔ reachable g false root a.
Proof.
  intros Hcl Hroot Hsize.
  destruct (walk_total_empty g false Hcl fuel root Hroot Hsize) as ([V L] & Hw).
  destruct (walk_reachable _ _ _ _ _ _ Hw) as (HV & _ & Hreach).
  exists V. rewrite Collect_walk, Hw. split; [done|].
  intros a. rewrite <-Hreach. set_solver.
Qed.

Lemma OnPlaceholdersReplaced_loop_owned (g : Graph) (fuel : nat)
    (placeholderReplacements : gmap Var Var) :
  closed g false → size g ≤ fuel →
  ∀ replacedPlaceholders all,
    (∀ p, p ∈ replacedPlaceholders →
          ∃ r, placeholderReplacements !! p = Some r ∧
               (IsOutput r = true → owner_exists g r)) →
    ∃ all',
      OnPlaceholdersReplaced_loop g fuel placeholderReplacements
        replacedPlaceholders all = Done all' ∧
      ∀ a, a ∈ all' ↔
           a ∈ all ∨ ∃ o, spliced placeholderReplacements replacedPlaceholders o ∧
                          reachable g false o a.
Proof.
  intros Hcl Hsize. induction replacedPlaceholders as [|p rest IH]; intros all Hall; simpl.
  - exists all. split; [done|]. intros a. split; [by left|].
    intros [?|(o & (p & r & Hp & _) & _)]; [done|]. by apply elem_of_nil in Hp.
  - destruct (Hall p) as (r & Hr & Hown); [by left|]. rewrite Hr.
    assert (∀ q, q ∈ rest →
              ∃ r, placeholderReplacements !! q = Some r ∧
                   (IsOutput r = true → owner_exists g r)) as Hrest.
    { intros q Hq. apply Hall. by right. }
    destruct (IsOutput r) eqn:Hout.
    + destruct (Hown eq_refl) as (o & Ho & Hg). rewrite Ho.
      destruct (Collect_reachable g fuel o Hcl Hg Hsize) as (fs & -> & Hfs).
      destruct (IH (all ∪ fs) Hrest) as (all' & -> & Hall').
      exists all'. split; [done|]. intros a. rewrite Hall', elem_of_union, Hfs.
      split.
      * intros [[?|Hreach]|(o' & (q & r' & Hq & ?) & ?)]; [by left|right..].
        -- exists o. split; [|done]. exists p, r. split; [by left|done].
        -- exists o'. split; [|done]. exists q, r'. split; [by right|done].
      * intros [?|(o' & (q & r' & [->|Hq]%elem_of_cons & Hq' & Hr' & Ho') & Hreach)].
        -- by left; left.
        -- left; right. congruence.
        -- right. exists o'. split; [|done]. by exists q, r'.
    + destruct (IH all Hrest) as (all' & -> & Hall').
      exists all'. split; [done|]. intros a. rewrite Hall'. split.
      * intros [?|(o' & (q & r' & Hq & ?) & ?)]; [by left|right].
        exists o'. split; [|done]. exists q, r'. split; [by right|done].
      * intros [?|(o' & (q & r' & [->|Hq]%elem_of_cons & Hq' & Hr' & Ho') & Hreach)].
        -- by left.
        -- congruence.
        -- right. exists o'. split; [|done]. by exists q, r'.
Qed.

(** C4: after OnPlaceholdersReplaced the composite owns what it owned
    before together with every Function reachable from the owner of a
    replacement that is an Output; nothing is removed, and the other
    members are left as they were. *)
Theorem OnPlaceholdersReplaced_owns_spliced (g : Graph) (fuel : nat)
    (placeholderReplacements : gmap Var Var) (replacedPlaceholders : gset Var)
    (self : CompositeFunction) :
  closed g false → size g ≤ fuel →
  (∀ p, p ∈ replacedPlaceholders →
        ∃ r, placeholderReplacements !! p = Some r ∧
             (IsOutput r = true → owner_exists g r)) →
  ∃ self',
    OnPlaceholdersReplaced g fuel placeholderReplacements replacedPlaceholders self =
      Done self' ∧
    (∀ a, a ∈ m_allPrimitiveFunctions self' ↔
          a ∈ m_allPrimitiveFunctions self ∨
          ∃ p r o, p ∈ replacedPlaceholders ∧ placeholderReplacements !! p = Some r ∧
                   IsOutput r = true ∧ Owner r = Some o ∧ reachable g false o a) ∧
    (∀ p r o, p ∈ replacedPlaceholders → placeholderReplacements !! p = Some r →
              IsOutput r = true → Owner r = Some o →
              ∃ collected, Collect g fuel o ∅ = Done collected ∧
                           collected ⊆ m_allPrimitiveFunctions self') ∧
    m_allPrimitiveFunctions self ⊆ m_allPrimitiveFunctions self' ∧
    m_rootFunction self' = m_rootFunction self ∧
    m_existingNetworkStorageReferences self' = m_existingNetworkStorageReferences self ∧
    m_currentBackpropRoots self' = m_currentBackpropRoots self.
Proof.
  intros Hcl Hsize Hall.
  destruct (OnPlaceholdersReplaced_loop_owned g fuel placeholderReplacements Hcl Hsize
              (elements replacedPlaceholders) (m_allPrimitiveFunctions self))
    as (all' & Hloop & Hall').
  { intros p Hp. apply Hall. by apply elem_of_elements. }
  assert (∀ a, a ∈ all' ↔
            a ∈ m_allPrimitiveFunctions self ∨
            ∃ p r o, p ∈ replacedPlaceholders ∧ placeholderReplacements !! p = Some r ∧
                     IsOutput r = true ∧ Owner r = Some o ∧ reachable g false o a) as Hmem.
  { intros a. rewrite Hall'. unfold spliced. setoid_rewrite elem_of_elements.
    naive_solver. }
  unfold OnPlaceholdersReplaced. rewrite Hloop. simpl.
  eexists. split; [done|]. simpl. split; [exact Hmem|]. split; [|split; [|done]].
  - intros p r o Hp Hr Hout Ho.
    destruct (Hall p Hp) as (r' & Hr' & Hown).
    assert (r' = r) as -> by congruence.
    destruct (Hown Hout) as (o' & Ho' & Hg). assert (o' = o) as -> by congruence.
    destruct (Collect_reachable g fuel o Hcl Hg Hsize) as (fs & Hfs & Hreach).
    exists fs. split; [done|]. intros a Ha. apply Hmem. right.
    exists p, r, o. repeat split; try done. by apply Hreach.
  - intros a Ha. apply Hmem. by left.
Qed.

Lemma OnPlaceholdersReplaced_owns_spliced_witness :
  ∃ self',
    OnPlaceholdersReplaced Samples.diamond 4 {[Samples.p := Samples.o3]} {[Samples.p]}
      Samples.branch = Done self' ∧
    (∀ a, a ∈ m_allPrimitiveFunctions self' ↔
          a ∈ m_allPrimitiveFunctions Samples.branch ∨
          ∃ p r o, p ∈ ({[Samples.p]} : gset Var) ∧
                   ({[Samples.p := Samples.o3]} : gmap Var Var) !! p = Some r ∧
                   IsOutput r = true ∧ Owner r = Some o ∧
                   reachable Samples.diamond false o a) ∧
    (∀ p r o, p ∈ ({[Samples.p]} : gset Var) →
              ({[Samples.p := Samples.o3]} : gmap Var Var) !! p = Some r →
              IsOutput r = true → Owner r = Some o →
              ∃ collected, Collect Samples.diamond 4 o ∅ = Done collected ∧
                           collected ⊆ m_allPrimitiveFunctions self') ∧
    m_allPrimitiveFunctions Samples.branch ⊆ m_allPrimitiveFunctions self' ∧
    m_rootFunction self' = m_rootFunction Samples.branch ∧
    m_existingNetworkStorageReferences self' =
      m_existingNetworkStorageReferences Samples.branch ∧
    m_currentBackpropRoots self' = m_currentBackpropRoots Samples.branch.
Proof.
  apply (OnPlaceholdersReplaced_owns_spliced Samples.diamond 4
           {[Samples.p := Samples.o3]} {[Samples.p]} Samples.branch).
  - apply (bool_decide_unpack _). by vm_compute.
  - vm_compute. lia.
  - intros p Hp. apply elem_of_singleton in Hp. subst p.
    exists Samples.o3. split; [by vm_compute|].
    intros _. apply (bool_decide_unpack _). by vm_compute.
Defined.

(** What the branch owns once [p] is replaced by the output of 3. *)
Example OnPlaceholdersReplaced_branch :
  result_map
    (λ self', bool_decide (m_allPrimitiveFunctions self' =
                           {[2%positive; 3%positive; 4%positive]}))
    (OnPlaceholdersReplaced Samples.diamond 4 {[Samples.p := Samples.o3]} {[Samples.p]}
       Samples.branch)
  = Done true.
Proof. by vm_compute. Qed.

(** ** ClearExistingOutputOrGradientStorageReferences *)

Section StorageFacts.
Context {PackedValue : Type}.
Variable Erase : PackedValue → PackedValue.

Lemma held_pos r refs : r ∈ refs → 0 < held r refs.
Proof.
  unfold held. induction refs as [|r' refs IH]; [by intros ?%elem_of_nil|].
  intros Hin. destruct (decide (r' = r)) as [->|Hne].
  - rewrite filter_cons_True by done. simpl. lia.
  - rewrite filter_cons_False by done. apply IH.
    apply elem_of_cons in Hin as [->|?]; done.
Qed.

Lemma held_zero r refs : r ∉ refs → held r refs = 0.
Proof.
  unfold held. induction refs as [|r' refs IH]; [done|].
  intros [Hne Hin]%not_elem_of_cons.
  rewrite filter_cons_False by done. by apply IH.
Qed.

Lemma erase_references_lookup refs :
  ∀ (store : gmap positive PackedValue) r,
    erase_references Erase refs store !! r =
    Nat.iter (held r refs) Erase <$> store !! r.
Proof.
  unfold held. induction refs as [|r0 refs IH]; intros store r; simpl.
  - by destruct (store !! r).
  - destruct (store !! r0) as [v0|] eqn:Hr0; rewrite IH.
    + destruct (decide (r0 = r)) as [->|Hne].
      * rewrite filter_cons_True by done.
        rewrite lookup_insert_eq, Hr0. cbn [length fmap option_fmap option_map].
        by rewrite Nat.iter_succ_r.
      * rewrite filter_cons_False by done. by rewrite lookup_insert_ne.
    + destruct (decide (r0 = r)) as [->|Hne].
      * by rewrite Hr0.
      * by rewrite filter_cons_False by done.
Qed.
End StorageFacts.

(** C6: ClearExistingOutputOrGradientStorageReferences leaves no
    tracked reference and calls Erase on every tracked PackedValue that is
    still alive, as often as it is tracked; an expired reference is passed
    over; PackedValues that are not tracked, and the other members of the
    composite, are left as they were. *)
Theorem ClearExisting_erases_live_references {PackedValue : Type}
    (Erase : PackedValue → PackedValue) (self : CompositeFunction)
    (store : gmap positive PackedValue) :
  m_existingNetworkStorageReferences
    (ClearExistingOutputOrGradientStorageReferences Erase self store).1 = [] ∧
  (∀ r, (ClearExistingOutputOrGradientStorageReferences Erase self store).2 !! r =
        Nat.iter (held r (m_existingNetworkStorageReferences self)) Erase <$> store !! r) ∧
  (∀ r v, r ∈ m_existingNetworkStorageReferences self → store !! r = Some v →
          ∃ v', (ClearExistingOutputOrGradientStorageReferences Erase self store).2 !! r =
                Some (Erase v')) ∧
  (∀ r, store !! r = None →
        (ClearExistingOutputOrGradientStorageReferences Erase self store).2 !! r = None) ∧
  (∀ r, r ∉ m_existingNetworkStorageReferences self →
        (ClearExistingOutputOrGradientStorageReferences Erase self store).2 !! r =
        store !! r) ∧
  m_rootFunction (ClearExistingOutputOrGradientStorageReferences Erase self store).1 =
    m_rootFunction self ∧
  m_allPrimitiveFunctions
    (ClearExistingOutputOrGradientStorageReferences Erase self store).1 =
    m_allPrimitiveFunctions self ∧
  m_currentBackpropRoots
    (ClearExistingOutputOrGradientStorageReferences Erase self store).1 =
    m_currentBackpropRoots self.
Proof.
  unfold ClearExistingOutputOrGradientStorageReferences. simpl.
  split; [done|]. split; [apply erase_references_lookup|].
  split; [|split; [|split; [|done]]].
  - intros r v Hr Hv. rewrite erase_references_lookup, Hv. simpl.
    pose proof (held_pos r _ Hr) as Hpos.
    destruct (held r (m_existingNetworkStorageReferences self)) as [|n]; [lia|].
    simpl. by eauto.
  - intros r Hr. by rewrite erase_references_lookup, Hr.
  - intros r Hr. rewrite erase_references_lookup, held_zero by done.
    by destruct (store !! r).
Qed.

(** A store with one live PackedValue that is tracked twice, an expired
    reference, and a live PackedValue that is not tracked; erasing adds 100. *)
Lemma ClearExisting_erases_live_references_witness :
  ∃ v', (ClearExistingOutputOrGradientStorageReferences (λ n : nat, n + 100)
           (mkComposite 1%positive ∅ [5%positive; 6%positive; 5%positive] ∅)
           {[5%positive := 1; 7%positive := 2]}).2 !! 5%positive = Some (v' + 100).
Proof.
  destruct (ClearExisting_erases_live_references (λ n : nat, n + 100)
              (mkComposite 1%positive ∅ [5%positive; 6%positive; 5%positive] ∅)
              {[5%positive := 1; 7%positive := 2]})
    as (_ & _ & H & _).
  apply (H 5%positive 1).
  - apply (bool_decide_unpack _). by vm_compute.
  - by vm_compute.
Defined.

Example ClearExisting_store :
  let store' :=
    (ClearExistingOutputOrGradientStorageReferences (λ n : nat, n + 100)
       (mkComposite 1%positive ∅ [5%positive; 6%positive; 5%positive] ∅)
       {[5%positive := 1; 7%positive := 2]}).2 in
  store' !! 5%positive = Some 201 ∧ store' !! 6%positive = None ∧
  store' !! 7%positive = Some 2.
Proof. by vm_compute. Qed.

(** ** The vector overload of Forward *)

(** C10: whatever its arguments, the vector overload of Forward ends
    with NOT_IMPLEMENTED and leaves the composite and the outputs map as
    they were handed in. *)
Theorem Forward_vector_not_implemented (self : CompositeFunction)
    (inputValues : list ValuePtr) (outputs : gmap Var positive)
    (computeDevice : DeviceDescriptor) (outputsToRetainBackwardStateFor : gset Var) :
  Forward_vector self inputValues outputs computeDevice outputsToRetainBackwardStateFor =
  (Fail NotImplemented, (self, outputs)).
Proof. reflexivity. Qed.

(** ** Deserialization *)

(** C9: a document newer than version 3 is refused and nothing is
    returned; up to version 2 the result is that of the restoration pass
    run on the reconstructed Functions, and a stateful Function has the
    state the side table holds for its uid; at version 3 there is no such
    pass and every Function has the state of its own attributes. *)
Theorem Deserialize_by_version (dict : Dictionary) :
  (s_serializationVersion < d_version dict →
     Deserialize dict = Fail UnsupportedVersion) ∧
  (d_version dict ≤ 2 →
     Deserialize dict =
       Done (RestoreStatefulFunctions (d_version dict) dict
               (reconstruct (d_version dict) <$> d_functions dict)) ∧
     ∀ i f, d_functions dict !! i = Some f →
       RestoreStatefulFunctions (d_version dict) dict
         (reconstruct (d_version dict) <$> d_functions dict) !! i =
       Some (mkPrimitive (s_uid f) (s_stateful f)
               (if s_stateful f then d_state dict !! s_uid f else None))) ∧
  (3 ≤ d_version dict → d_version dict ≤ s_serializationVersion →
     Deserialize dict = Done (reconstruct (d_version dict) <$> d_functions dict) ∧
     ∀ i f, d_functions dict !! i = Some f →
       (reconstruct (d_version dict) <$> d_functions dict) !! i =
       Some (mkPrimitive (s_uid f) (s_stateful f) (s_attributes_state f))).
Proof.
  unfold Deserialize, s_serializationVersion. split; [|split].
  - intros Hv. by rewrite decide_True by done.
  - intros Hv. rewrite decide_False, decide_True by lia. split; [done|].
    intros i f Hf. unfold RestoreStatefulFunctions.
    rewrite !list_lookup_fmap, Hf. simpl. unfold reconstruct.
    rewrite decide_False by lia. simpl. by destruct (s_stateful f).
  - intros Hv3 Hv. rewrite !decide_False by lia. split; [done|].
    intros i f Hf. rewrite list_lookup_fmap, Hf. simpl. unfold reconstruct.
    by rewrite decide_True by lia.
Qed.

Lemma Deserialize_by_version_witness :
  Deserialize (mkDictionary 4 [mkSerialized 1 true (Some 7%N)] ∅) =
    Fail UnsupportedVersion ∧
  Deserialize (mkDictionary 2 [mkSerialized 1 true None; mkSerialized 2 false None]
                 {[1%positive := 9%N]}) =
    Done (RestoreStatefulFunctions 2
            (mkDictionary 2 [mkSerialized 1 true None; mkSerialized 2 false None]
               {[1%positive := 9%N]})
            (reconstruct 2 <$> [mkSerialized 1 true None; mkSerialized 2 false None])) ∧
  Deserialize (mkDictionary 3 [mkSerialized 1 true (Some 7%N)] {[1%positive := 9%N]}) =
    Done (reconstruct 3 <$> [mkSerialized 1 true (Some 7%N)]).
Proof.
  split; [|split].
  - apply (proj1 (Deserialize_by_version
                    (mkDictionary 4 [mkSerialized 1 true (Some 7%N)] ∅))).
    vm_compute. lia.
  - apply (proj1 (proj2 (Deserialize_by_version
                    (mkDictionary 2 [mkSerialized 1 true None; mkSerialized 2 false None]
                       {[1%positive := 9%N]})))).
    vm_compute. lia.
  - apply (proj2 (proj2 (Deserialize_by_version
                    (mkDictionary 3 [mkSerialized 1 true (Some 7%N)]
                       {[1%positive := 9%N]})))).
    + vm_compute. lia.
    + vm_compute. lia.
Defined.

(** The three documents of the witness, run. *)
Example Deserialize_samples :
  Deserialize (mkDictionary 2 [mkSerialized 1 true None; mkSerialized 2 false None]
                 {[1%positive := 9%N]}) =
    Done [mkPrimitive 1 true (Some 9%N); mkPrimitive 2 false None] ∧
  Deserialize (mkDictionary 3 [mkSerialized 1 true (Some 7%N)] {[1%positive := 9%N]}) =
    Done [mkPrimitive 1 true (Some 7%N)].
Proof. split; by vm_compute. Qed.

(** * Further properties of the header *)

(** ** How a traversal can end *)

Section WalkOutcome.
Variable g : Graph.
Variable py : bool.

Lemma walk_inputs_fueled recurse n :
  (∀ o V V' L, recurse o V = Done (V', L) → walk_post g py o V V' L) →
  (∀ o V, o ∉ V → size (dom g ∖ V) < n → recurse o V ≠ OutOfFuel) →
  ∀ inputs V, size (dom g ∖ V) < n → walk_inputs recurse inputs V ≠ OutOfFuel.
Proof.
  intros Hpost Hrec. induction inputs as [|v rest IH]; intros V Hsize; simpl; [done|].
  destruct (IsOutput v); [|by apply IH].
  destruct (Owner v) as [o|]; [|done].
  destruct (decide (o ∈ V)) as [?|Ho]; [by apply IH|].
  specialize (Hrec o V Ho Hsize).
  destruct (recurse o V) as [[V1 L1]| |] eqn:Hr; [|done..].
  destruct (Hpost _ _ _ _ Hr) as (HV1 & _).
  assert (walk_inputs recurse rest V1 ≠ OutOfFuel) as Hrest.
  { apply IH. eapply Nat.le_lt_trans; [|exact Hsize]. apply subseteq_size. set_solver. }
  by destruct (walk_inputs recurse rest V1).
Qed.

Lemma walk_fueled fuel :
  ∀ root V, root ∉ V → size (dom g ∖ V) < fuel → walk g py fuel root V ≠ OutOfFuel.
Proof.
  induction fuel as [|n IH]; intros root V Hroot Hsize; [lia|]. simpl.
  destruct (g !! root) as [f|] eqn:Hf; [|done].
  assert (walk_inputs (walk g py n) (Inputs f py) ({[root]} ∪ V) ≠ OutOfFuel) as H.
  { apply (walk_inputs_fueled _ n); [apply walk_walk_post|exact IH|].
    assert (size (dom g ∖ ({[root]} ∪ V)) < size (dom g ∖ V)); [|lia].
    apply subset_size. assert (root ∈ dom g) by (by apply elem_of_dom).
    split; [set_solver|]. intros Hsub. specialize (Hsub root). set_solver. }
  by destruct (walk_inputs _ _ _).
Qed.

Lemma walk_inputs_fail recurse :
  (∀ o V e, recurse o V = Fail e →
            e = NullFunction ∧ (g !! o = None ∨ dangling_under g py o)) →
  ∀ inputs V e, walk_inputs recurse inputs V = Fail e →
    e = NullFunction ∧
    ∃ v, v ∈ inputs ∧ IsOutput v = true ∧
         (¬ owner_exists g v ∨ ∃ o, Owner v = Some o ∧ dangling_under g py o).
Proof.
  intros Hrec. induction inputs as [|v rest IH]; intros V e; simpl; [done|].
  assert (∀ V, walk_inputs recurse rest V = Fail e →
            e = NullFunction ∧
            ∃ v', v' ∈ v :: rest ∧ IsOutput v' = true ∧
                  (¬ owner_exists g v' ∨ ∃ o, Owner v' = Some o ∧ dangling_under g py o))
    as Hrest.
  { intros V0 H. destruct (IH _ _ H) as (-> & v' & ? & ?). split; [done|].
    exists v'. split; [by right|done]. }
  destruct (IsOutput v) eqn:Hout; [|by apply Hrest].
  destruct (Owner v) as [o|] eqn:Hown.
  - destruct (decide (o ∈ V)); [by apply Hrest|].
    destruct (recurse o V) as [[V1 L1]| |] eqn:Hr.
    + intros H. apply (Hrest V1). by destruct (walk_inputs recurse rest V1).
    + intros [= <-]. destruct (Hrec _ _ _ Hr) as (-> & Hbad). split; [done|].
      exists v. split; [by left|]. split; [done|]. destruct Hbad as [Hnone|Hd].
      * left. intros (o' & Ho' & Hsome). rewrite Hown in Ho'. injection Ho' as <-.
        rewrite Hnone in Hsome. by destruct Hsome.
      * right. by exists o.
    + done.
  - intros [= <-]. split; [done|]. exists v. split; [by left|]. split; [done|].
    left. intros (o' & Ho' & _). by rewrite Hown in Ho'.
Qed.

Lemma walk_fail fuel :
  ∀ root V e, walk g py fuel root V = Fail e →
    e = NullFunction ∧ (g !! root = None ∨ dangling_under g py root).
Proof.
  induction fuel as [|n IH]; intros root V e; simpl; [done|].
  destruct (g !! root) as [f|] eqn:Hf; [|intros [= <-]; by auto].
  destruct (walk_inputs (walk g py n) (Inputs f py) ({[root]} ∪ V))
    as [[V1 L1]| |] eqn:Hw; simpl; [done| |done].
  intros [= <-]. destruct (walk_inputs_fail _ IH _ _ _ Hw) as (-> & v & Hv & Hout & Hbad).
  split; [done|]. right. destruct Hbad as [Hbad|(o & Ho & a & fa & v' & Hr & ?)].
  - exists root, f, v. split; [apply rtc_refl|done].
  - exists a, fa, v'. split; [|done]. eapply rtc_l; [|exact Hr]. by exists f, v.
Qed.

Lemma walk_inputs_owners recurse :
  (∀ o V V' L, recurse o V = Done (V', L) → owners_set g py L) →
  ∀ inputs V V' L, walk_inputs recurse inputs V = Done (V', L) →
    (∀ v, v ∈ inputs → IsOutput v = true → is_Some (Owner v)) ∧ owners_set g py L.
Proof.
  intros Hrec. induction inputs as [|v rest IH]; intros V V' L; simpl.
  - intros [= <- <-]. split; [by intros ? ?%elem_of_nil|].
    by intros a f v' ?%elem_of_nil.
  - destruct (IsOutput v) eqn:Hout.
    + destruct (Owner v) as [o|] eqn:Hown; [|done].
      destruct (decide (o ∈ V)).
      * intros H. destruct (IH _ _ _ H) as [Hall HL]. split; [|done].
        intros v' [->|?]%elem_of_cons ?; [by rewrite Hown|by auto].
      * destruct (recurse o V) as [[V1 L1]| |] eqn:Hr; [|done..].
        intros H. apply result_map_Done in H as ([V2 L2] & H & [= -> ->]).
        destruct (IH _ _ _ H) as [Hall HL]. split.
        -- intros v' [->|?]%elem_of_cons ?; [by rewrite Hown|by auto].
        -- intros a f v' [?|?]%elem_of_app; [by eapply Hrec|by eapply HL].
    + intros H. destruct (IH _ _ _ H) as [Hall HL]. split; [|done].
      intros v' [->|?]%elem_of_cons ?; [congruence|by auto].
Qed.

Lemma walk_owners fuel :
  ∀ root V V' L, walk g py fuel root V = Done (V', L) → owners_set g py L.
Proof.
  induction fuel as [|n IH]; intros root V V' L; simpl; [done|].
  destruct (g !! root) as [f|] eqn:Hf; [|done].
  intros H. apply result_map_Done in H as ([V2 L2] & H & [= -> ->]).
  destruct (walk_inputs_owners _ IH _ _ _ _ H) as [Hall HL].
  intros a fa v [->|?]%elem_of_cons Hfa Hv Hout; [|by eapply HL].
  assert (fa = f) as -> by congruence. by apply Hall.
Qed.

Lemma walk_done_no_dangling fuel root V' L :
  walk g py fuel root ∅ = Done (V', L) →
  is_Some (g !! root) ∧ ¬ dangling_under g py root.
Proof.
  intros Hw. pose proof (walk_owners _ _ _ _ _ Hw) as Hown.
  destruct (walk_reachable _ _ _ _ _ _ Hw) as (HV & _ & Hreach).
  destruct (walk_walk_post _ _ _ _ _ _ _ Hw) as (_ & Hroot & _ & _ & _ & Hdom & Hcl).
  split; [by apply Hdom|].
  intros (a & f & v & Ha & Hf & Hv & Hout & Hbad). apply Hbad.
  apply Hreach in Ha. destruct (Hown a f v Ha Hf Hv Hout) as [o Ho].
  exists o. split; [done|]. apply Hdom, Hreach. eapply rtc_r; [by apply Hreach|].
  by exists f, v.
Qed.
End WalkOutcome.

Lemma TraverseVariables_walk_rel {St} (g : Graph) (functor : Var → St → St)
    (py pre : bool) (fuel : nat) (root : FunctionPtr) (V : gset positive) (s : St) :
  result_rel
    (λ a b, a.1 = b.1 ∧
            ∃ t, a.2 = foldl (λ s v, functor v s) s t ∧ t ≡ₚ b.2 ≫= vars_of g py)
    (TraverseVariables g functor py pre fuel root V s) (walk g py fuel root V).
Proof.
  rewrite TraverseVariables_visits. pose proof (visits_walk g py pre fuel root V) as H.
  destruct (visits g py pre fuel root V) as [[V1 t]| |],
           (walk g py fuel root V) as [[V2 L]| |]; simpl in *; try done.
  destruct H as [-> Ht]. split; [done|]. by exists t.
Qed.

Lemma TraverseVariables0_ends {St} (g : Graph) (functor : Var → St → St)
    (py pre : bool) (fuel : nat) (root : FunctionPtr) (s : St) :
  (∀ e, TraverseVariables0 g functor py pre fuel root s = Fail e →
        e = NullFunction ∧ (g !! root = None ∨ dangling_under g py root)) ∧
  (∀ r, TraverseVariables0 g functor py pre fuel root s = Done r →
        is_Some (g !! root) ∧ ¬ dangling_under g py root).
Proof.
  unfold TraverseVariables0.
  pose proof (TraverseVariables_walk_rel g functor py pre fuel root ∅ s) as H.
  split.
  - intros e He. rewrite He in H.
    destruct (walk g py fuel root ∅) as [[V L]|e'|] eqn:Hw; simpl in H; try done.
    subst e'. by eapply walk_fail.
  - intros r Hr. rewrite Hr in H.
    destruct (walk g py fuel root ∅) as [[V L]|e'|] eqn:Hw; simpl in H; try done.
    by eapply walk_done_no_dangling.
Qed.

(** X1: whatever the fuel, a traversal that fails has dereferenced a
    null Function: the root does not exist, or a Function reachable from it
    has an Output input whose owner is null or does not exist; a traversal
    that returns has met neither. *)
Theorem TraverseVariables_outcome {St} (g : Graph) (functor : Var → St → St)
    (py pre : bool) (fuel : nat) (root : FunctionPtr) (s : St) :
  (∀ e, TraverseVariables0 g functor py pre fuel root s = Fail e →
        e = NullFunction ∧ (g !! root = None ∨ dangling_under g py root)) ∧
  (∀ r, TraverseVariables0 g functor py pre fuel root s = Done r →
        is_Some (g !! root) ∧ ¬ dangling_under g py root).
Proof. apply TraverseVariables0_ends. Qed.

(** X2: on every finite graph, dangling owners included, more fuel than
    there are Functions is never used up; with that much fuel the
    traversal returns exactly when the root exists and no Function
    reachable from it has an Output input without an existing owner. *)
Theorem TraverseVariables_never_out_of_fuel {St} (g : Graph) (functor : Var → St → St)
    (py pre : bool) (fuel : nat) (root : FunctionPtr) (s : St) :
  size g < fuel →
  TraverseVariables0 g functor py pre fuel root s ≠ OutOfFuel ∧
  ((∃ r, TraverseVariables0 g functor py pre fuel root s = Done r) ↔
   is_Some (g !! root) ∧ ¬ dangling_under g py root).
Proof.
  intros Hsize.
  assert (TraverseVariables0 g functor py pre fuel root s ≠ OutOfFuel) as Hfuel.
  { unfold TraverseVariables0.
    pose proof (TraverseVariables_walk_rel g functor py pre fuel root ∅ s) as H.
    assert (walk g py fuel root ∅ ≠ OutOfFuel) as Hw.
    { apply walk_fueled; [set_solver|]. rewrite difference_empty_L. by rewrite size_dom. }
    intros Heq. rewrite Heq in H. by destruct (walk g py fuel root ∅) as [[V L]| |]. }
  split; [exact Hfuel|].
  destruct (TraverseVariables0_ends g functor py pre fuel root s) as [Hfail Hdone].
  split; [intros [r Hr]; by eapply Hdone|].
  intros [Hroot Hnd].
  destruct (TraverseVariables0 g functor py pre fuel root s) as [r|e|] eqn:Hr.
  - by exists r.
  - destruct (Hfail e eq_refl) as (_ & [Hnone|Hd]); [|done].
    rewrite Hnone in Hroot. by destruct Hroot.
  - done.
Qed.

(** ** A traversal over a visited set of the caller *)

(** X3: the overload that takes the caller's visited set only adds to
    it; it adds the root and Functions reachable from the root, enters no
    Function the caller had marked visited except the root itself, enters
    none twice, and calls the visitor on the Variables of the Functions it
    enters and on no others. *)
Theorem TraverseVariables_visited_grows {St} (g : Graph) (functor : Var → St → St)
    (py pre : bool) (fuel : nat) (root : FunctionPtr) (V V' : gset positive) (s s' : St) :
  TraverseVariables g functor py pre fuel root V s = Done (V', s') →
  V ⊆ V' ∧ root ∈ V' ∧
  (∀ a, a ∈ V' → a ∈ V ∨ reachable g py root a) ∧
  ∃ L t, NoDup L ∧ V' = V ∪ list_to_set L ∧
         (∀ a, a ∈ L → a = root ∨ a ∉ V) ∧
         s' = foldl (λ s v, functor v s) s t ∧ t ≡ₚ L ≫= vars_of g py.
Proof.
  intros Hr. pose proof (TraverseVariables_walk_rel g functor py pre fuel root V s) as H.
  rewrite Hr in H.
  destruct (walk g py fuel root V) as [[V2 L]| |] eqn:Hw; simpl in H; try done.
  destruct H as (<- & t & -> & Ht).
  destruct (walk_walk_post _ _ _ _ _ _ _ Hw) as (HV & Hroot & Hnd & Hfresh & Hreach & _).
  split; [set_solver|]. split; [set_solver|]. split.
  - intros a Ha. rewrite HV in Ha. apply elem_of_union in Ha as [?|Ha]; [by left|].
    right. apply Hreach. by apply elem_of_list_to_set in Ha.
  - by exists L, t.
Qed.

Lemma TraverseVariables_visited_grows_witness :
  ∃ V' s',
    TraverseVariables Samples.diamond record_visit false true 4 1%positive
      {[2%positive]} [] = Done (V', s') ∧
    ({[2%positive]} : gset positive) ⊆ V' ∧ 1%positive ∈ V' ∧
    (∀ a, a ∈ V' → a ∈ ({[2%positive]} : gset positive) ∨
                   reachable Samples.diamond false 1%positive a) ∧
    ∃ L t, NoDup L ∧ V' = {[2%positive]} ∪ list_to_set L ∧
           (∀ a, a ∈ L → a = 1%positive ∨ a ∉ ({[2%positive]} : gset positive)) ∧
           s' = foldl (λ s v, record_visit v s) [] t ∧
           t ≡ₚ L ≫= vars_of Samples.diamond false.
Proof.
  eexists _, _. split; [vm_compute; reflexivity|].
  apply (TraverseVariables_visited_grows Samples.diamond record_visit false true 4
           1%positive {[2%positive]}).
  vm_compute. reflexivity.
Defined.

(** With 2 marked visited by the caller, the walk from 1 leaves the
    Variables of 2 out and still reaches 4 through 3. *)
Example visits_diamond_without_2 :
  result_map snd (visits Samples.diamond false true 4 1%positive {[2%positive]}) =
    Done [Samples.o1; Samples.o3; Samples.w; Samples.o4; Samples.x; Samples.w].
Proof. by vm_compute. Qed.

Lemma TraverseInputs_all_visited {St} (functor : Var → St → St)
    (recurse : FunctionPtr → gset positive → St → result (gset positive * St))
    (V : gset positive) :
  ∀ inputs s,
    (∀ v, v ∈ inputs → IsOutput v = true → ∃ o, Owner v = Some o ∧ o ∈ V) →
    TraverseInputs functor recurse inputs V s =
    Done (V, foldl (λ s v, functor v s) s (filter (λ v, IsOutput v = false) inputs)).
Proof.
  induction inputs as [|v rest IH]; intros s Hall; simpl; [done|].
  assert (∀ v', v' ∈ rest → IsOutput v' = true → ∃ o, Owner v' = Some o ∧ o ∈ V) as Hrest.
  { intros v' Hv'. apply Hall. by right. }
  destruct (IsOutput v) eqn:Hout.
  - rewrite filter_cons_False by congruence.
    destruct (Hall v) as (o & -> & Ho); [by left|done|].
    rewrite decide_True by done. by apply IH.
  - rewrite filter_cons_True by done. simpl. by apply IH.
Qed.

(** X4: TraverseVariables does not look whether its root is already in
    the visited set.  When every Output input of the root has its owner in
    the set (or is owned by the root), one unit of fuel is enough, the set
    gains at most the root, and the visitor is called on the outputs of the
    root and on its inputs that are not Outputs, in the order of the code,
    whether or not the root had been visited before. *)
Theorem TraverseVariables_shallow {St} (g : Graph) (functor : Var → St → St)
    (py pre : bool) (fuel : nat) (root : FunctionPtr) (f : FunctionObj)
    (V : gset positive) (s : St) :
  g !! root = Some f →
  (∀ v, v ∈ Inputs f py → IsOutput v = true →
        ∃ o, Owner v = Some o ∧ o ∈ ({[root]} ∪ V : gset positive)) →
  TraverseVariables g functor py pre (S fuel) root V s =
  Done ({[root]} ∪ V,
        foldl (λ s v, functor v s) s
          (if pre
           then InitOutputs f ++ filter (λ v, IsOutput v = false) (Inputs f py)
           else filter (λ v, IsOutput v = false) (Inputs f py) ++ InitOutputs f)).
Proof.
  intros Hf Hall. simpl. rewrite Hf.
  rewrite (TraverseInputs_all_visited functor _ ({[root]} ∪ V) _ _ Hall).
  unfold visit_outputs. destruct pre; by rewrite foldl_app.
Qed.

(** The root 1 of the diamond, walked again over the set its first walk
    returned: only its output is visited, its inputs are Outputs. *)
Lemma TraverseVariables_shallow_witness :
  TraverseVariables Samples.diamond record_visit false true 1 1%positive
    {[1%positive; 2%positive; 3%positive; 4%positive]} [] =
  Done ({[1%positive]} ∪ {[1%positive; 2%positive; 3%positive; 4%positive]},
        foldl (λ s v, record_visit v s) []
          (InitOutputs (mkFunction [Samples.o1] (λ _, [Samples.o2; Samples.o3])) ++
           filter (λ v, IsOutput v = false)
             (Inputs (mkFunction [Samples.o1] (λ _, [Samples.o2; Samples.o3])) false))).
Proof.
  apply (TraverseVariables_shallow Samples.diamond record_visit false true 0 1%positive
           (mkFunction [Samples.o1] (λ _, [Samples.o2; Samples.o3]))).
  - by vm_compute.
  - intros v Hv _. simpl in Hv.
    apply elem_of_cons in Hv as [->|Hv]; [|apply elem_of_cons in Hv as [->|Hv]].
    + exists 2%positive. split; [done|]. apply (bool_decide_unpack _). by vm_compute.
    + exists 3%positive. split; [done|]. apply (bool_decide_unpack _). by vm_compute.
    + by apply elem_of_nil in Hv.
Defined.

(** ** The operand order *)

Section OperandOrder.
Variable g : Graph.
Hypothesis Hperm : map_Forall (λ _ f, Inputs f true ≡ₚ Inputs f false) g.

Lemma edge_operand_order (py py' : bool) (a b : FunctionPtr) :
  edge g py a b → edge g py' a b.
Proof.
  intros (f & v & Hf & Hv & Hout & Hown). exists f, v. split; [done|].
  split; [|done]. pose proof (Hperm a f Hf) as Hp.
  destruct py, py'; try done; [by rewrite <-Hp|by rewrite Hp].
Qed.

Lemma reachable_operand_order (py py' : bool) (a b : FunctionPtr) :
  reachable g py a b → reachable g py' a b.
Proof. apply rtc_subrel. intros x y. apply edge_operand_order. Qed.

Lemma closed_operand_order (py py' : bool) : closed g py → closed g py'.
Proof.
  intros Hcl a f v Hf Hv Hout. apply (Hcl a f v Hf); [|done].
  pose proof (Hperm a f Hf) as Hp.
  destruct py, py'; try done; [by rewrite Hp|by rewrite <-Hp].
Qed.

Lemma vars_of_operand_order (a : FunctionPtr) : vars_of g true a ≡ₚ vars_of g false a.
Proof.
  unfold vars_of. destruct (g !! a) as [f|] eqn:Hf; [|done].
  by rewrite (Hperm a f Hf).
Qed.

Lemma bind_vars_of_operand_order (L : list positive) :
  L ≫= vars_of g true ≡ₚ L ≫= vars_of g false.
Proof.
  induction L as [|a L IH]; simpl; [done|]. by rewrite IH, vars_of_operand_order.
Qed.
End OperandOrder.

(** X5: when the two operand orders of every Function list the same
    inputs, the flag [pythonOperandOrder] only reorders: both settings
    enter the same Functions and hand the visitor the same Variables, each
    as often, and DetermineInputs returns the same inputs up to order. *)
Theorem operand_order_only_reorders (g : Graph) (pre : bool) (fuel : nat)
    (root : FunctionPtr) :
  map_Forall (λ _ f, Inputs f true ≡ₚ Inputs f false) g →
  closed g false → is_Some (g !! root) → size g ≤ fuel →
  ∃ V t t' inputs inputs',
    visits g false pre fuel root ∅ = Done (V, t) ∧
    visits g true pre fuel root ∅ = Done (V, t') ∧
    t ≡ₚ t' ∧
    DetermineInputs g fuel root ∅ false = Done (V, inputs) ∧
    DetermineInputs g fuel root ∅ true = Done (V, inputs') ∧
    inputs ≡ₚ inputs'.
Proof.
  intros Hperm Hcl Hroot Hsize.
  pose proof (closed_operand_order g Hperm false true Hcl) as Hcl'.
  assert (∀ pre0, ∃ V t t',
            visits g false pre0 fuel root ∅ = Done (V, t) ∧
            visits g true pre0 fuel root ∅ = Done (V, t') ∧ t ≡ₚ t') as Hboth.
  { intros pre0.
    destruct (visits_total g false pre0 fuel root Hcl Hroot Hsize)
      as (V & t & L & Hv & Hw & Ht).
    destruct (visits_total g true pre0 fuel root Hcl' Hroot Hsize)
      as (V' & t' & L' & Hv' & Hw' & Ht').
    destruct (walk_reachable _ _ _ _ _ _ Hw) as (HV & Hnd & Hreach).
    destruct (walk_reachable _ _ _ _ _ _ Hw') as (HV' & Hnd' & Hreach').
    assert (L ≡ₚ L') as HL.
    { apply NoDup_Permutation; [done..|]. intros a. rewrite Hreach, Hreach'.
      split; by apply reachable_operand_order. }
    assert (V' = V) as ->.
    { subst V V'. apply set_eq. intros a. rewrite !elem_of_list_to_set. by rewrite HL. }
    exists V, t, t'. split; [done|]. split; [done|].
    by rewrite Ht, Ht', HL, bind_vars_of_operand_order. }
  destruct (Hboth pre) as (V & t & t' & Hv & Hv' & Ht).
  destruct (Hboth true) as (V1 & t1 & t1' & Hv1 & Hv1' & Ht1).
  assert (V1 = V) as ->.
  { destruct (visits_total g false pre fuel root Hcl Hroot Hsize)
      as (? & ? & L & Hx & Hw & _).
    destruct (visits_total g false true fuel root Hcl Hroot Hsize)
      as (? & ? & L1 & Hx1 & Hw1 & _).
    rewrite Hw in Hw1. injection Hw1 as <- <-. congruence. }
  exists V, t, t', (first_seen (filter (λ v, IsOutput v = false) t1)),
         (first_seen (filter (λ v, IsOutput v = false) t1')).
  split; [done|]. split; [done|]. split; [done|].
  rewrite !DetermineInputs_visits, Hv1, Hv1'. split; [done|]. split; [done|].
  apply NoDup_Permutation; [apply first_seen_NoDup..|].
  intros v. rewrite !first_seen_elem, !list_elem_of_filter. by rewrite Ht1.
Qed.

(** ** The inputs of a composite *)

(** X6: on a well-formed graph DetermineInputs returns the leaves under
    the root: the Variables that are not Outputs and are an input of some
    Function reachable from the root, each once and nothing else. *)
Theorem DetermineInputs_leaves (g : Graph) (py : bool) (fuel : nat) (root : FunctionPtr) :
  well_formed g py → is_Some (g !! root) → size g ≤ fuel →
  ∃ V inputs,
    DetermineInputs g fuel root ∅ py = Done (V, inputs) ∧
    NoDup inputs ∧
    ∀ v, v ∈ inputs ↔
         IsOutput v = false ∧
         ∃ a f, reachable g py root a ∧ g !! a = Some f ∧ v ∈ Inputs f py.
Proof.
  intros Hwf Hroot Hsize.
  destruct (visits_total g py true fuel root (well_formed_closed g py Hwf) Hroot Hsize)
    as (V & t & L & Hv & Hw & Ht).
  destruct (walk_reachable _ _ _ _ _ _ Hw) as (_ & _ & Hreach).
  exists V, (first_seen (filter (λ v, IsOutput v = false) t)).
  rewrite DetermineInputs_visits, Hv. split; [done|]. split; [apply first_seen_NoDup|].
  intros v. rewrite first_seen_elem, list_elem_of_filter, Ht.
  rewrite (elem_of_bind_vars_of g py Hwf root L v Hreach). split.
  - intros (Hout & a & f & Ha & Hf & [Hv'|Hv']).
    + destruct Hwf as (H1 & _). destruct (H1 a f v Hf Hv'). congruence.
    + split; [done|]. by exists a, f.
  - intros (Hout & a & f & Ha & Hf & Hv'). split; [done|]. exists a, f. by auto.
Qed.

Lemma DetermineInputs_leaves_witness :
  ∃ V inputs,
    DetermineInputs Samples.diamond 4 1%positive ∅ false = Done (V, inputs) ∧
    NoDup inputs ∧
    ∀ v, v ∈ inputs ↔
         IsOutput v = false ∧
         ∃ a f, reachable Samples.diamond false 1%positive a ∧
                Samples.diamond !! a = Some f ∧ v ∈ Inputs f false.
Proof.
  apply (DetermineInputs_leaves Samples.diamond false 4 1%positive).
  - apply (bool_decide_unpack _). by vm_compute.
  - apply (bool_decide_unpack _). by vm_compute.
  - vm_compute. lia.
Defined.

(** ** Witnesses on the sample cases *)

(** In [broken] the walk from 1 fails on the missing owner of [o2]. *)
Lemma TraverseVariables_outcome_witness :
  NullFunction = NullFunction ∧
  (Cases.broken !! 1%positive = None ∨ dangling_under Cases.broken false 1%positive).
Proof.
  apply (proj1 (TraverseVariables_outcome Cases.broken record_visit false true 2
                  1%positive []) NullFunction).
  by vm_compute.
Defined.

Lemma TraverseVariables_never_out_of_fuel_witness :
  TraverseVariables0 Cases.broken record_visit false true 2 1%positive [] ≠ OutOfFuel ∧
  ((∃ r, TraverseVariables0 Cases.broken record_visit false true 2 1%positive [] = Done r) ↔
   is_Some (Cases.broken !! 1%positive) ∧ ¬ dangling_under Cases.broken false 1%positive).
Proof.
  apply (TraverseVariables_never_out_of_fuel Cases.broken record_visit false true 2
           1%positive []).
  vm_compute. lia.
Defined.

Lemma operand_order_only_reorders_witness :
  ∃ V t t' inputs inputs',
    visits Cases.swapped false true 2 1%positive ∅ = Done (V, t) ∧
    visits Cases.swapped true true 2 1%positive ∅ = Done (V, t') ∧
    t ≡ₚ t' ∧
    DetermineInputs Cases.swapped 2 1%positive ∅ false = Done (V, inputs) ∧
    DetermineInputs Cases.swapped 2 1%positive ∅ true = Done (V, inputs') ∧
    inputs ≡ₚ inputs'.
Proof.
  apply (operand_order_only_reorders Cases.swapped true 2 1%positive).
  - apply (bool_decide_unpack _). by vm_compute.
  - apply (bool_decide_unpack _). by vm_compute.
  - apply (bool_decide_unpack _). by vm_compute.
  - vm_compute. lia.
Defined.

(** The inputs of [swapped] under the two operand orders. *)
Example DetermineInputs_swapped :
  result_map snd (DetermineInputs Cases.swapped 2 1%positive ∅ false) =
    Done [Samples.w; Samples.x] ∧
  result_map snd (DetermineInputs Cases.swapped 2 1%positive ∅ true) =
    Done [Samples.x; Samples.w].
Proof. split; by vm_compute. Qed.

(** ** OnPlaceholdersReplaced, further *)

Lemma Collect_Done_root (g : Graph) (fuel : nat) (root : FunctionPtr)
    (V functions : gset positive) :
  Collect g fuel root V = Done functions → is_Some (g !! root).
Proof.
  rewrite Collect_walk. intros H.
  apply result_map_Done in H as ([V' L] & Hw & _).
  destruct (walk_walk_post _ _ _ _ _ _ _ Hw) as (_ & Hroot & _ & _ & _ & Hdom & _).
  by apply Hdom.
Qed.

Lemma OnPlaceholdersReplaced_loop_Done (g : Graph) (fuel : nat)
    (placeholderReplacements : gmap Var Var) :
  ∀ replacedPlaceholders all all',
    OnPlaceholdersReplaced_loop g fuel placeholderReplacements replacedPlaceholders all =
      Done all' →
    (∀ p, p ∈ replacedPlaceholders →
          ∃ r, placeholderReplacements !! p = Some r ∧
               (IsOutput r = true → owner_exists g r)) ∧
    ∃ X, all' = all ∪ X ∧
         ∀ all2, OnPlaceholdersReplaced_loop g fuel placeholderReplacements
                   replacedPlaceholders all2 = Done (all2 ∪ X).
Proof.
  induction replacedPlaceholders as [|p rest IH]; intros all all'; simpl.
  - intros [= <-]. split; [by intros ? ?%elem_of_nil|].
    exists ∅. split; [set_solver|]. intros all2. f_equal. set_solver.
  - destruct (placeholderReplacements !! p) as [r|] eqn:Hr; [|done].
    destruct (IsOutput r) eqn:Hout.
    + destruct (Owner r) as [o|] eqn:Ho; [|done].
      destruct (Collect g fuel o ∅) as [fs| |] eqn:Hc; [|done..].
      intros H. destruct (IH _ _ H) as (Hall & X & -> & HX). split.
      * intros q [->|Hq]%elem_of_cons; [|by auto].
        exists r. split; [done|]. intros _. exists o. split; [done|].
        by eapply Collect_Done_root.
      * exists (fs ∪ X). split; [set_solver|]. intros all2.
        rewrite HX. f_equal. set_solver.
    + intros H. destruct (IH _ _ H) as (Hall & X & -> & HX). split.
      * intros q [->|Hq]%elem_of_cons; [|by auto].
        exists r. split; [done|]. congruence.
      * by exists X.
Qed.

(** X7: OnPlaceholdersReplaced returns only if every replaced
    placeholder has an entry in [placeholderReplacements] and every
    replacement that is an Output has an owner that exists; a missing entry
    ([at] throws) or a null owner ends the call otherwise. *)
Theorem OnPlaceholdersReplaced_Done_entries (g : Graph) (fuel : nat)
    (placeholderReplacements : gmap Var Var) (replacedPlaceholders : gset Var)
    (self self' : CompositeFunction) :
  OnPlaceholdersReplaced g fuel placeholderReplacements replacedPlaceholders self =
    Done self' →
  ∀ p, p ∈ replacedPlaceholders →
       ∃ r, placeholderReplacements !! p = Some r ∧
            (IsOutput r = true → owner_exists g r).
Proof.
  unfold OnPlaceholdersReplaced. intros H.
  apply result_map_Done in H as (all' & Hloop & _).
  destruct (OnPlaceholdersReplaced_loop_Done _ _ _ _ _ _ Hloop) as [Hall _].
  intros p Hp. apply Hall. by apply elem_of_elements.
Qed.

Lemma OnPlaceholdersReplaced_Done_entries_witness :
  ∃ self',
    OnPlaceholdersReplaced Samples.diamond 4 {[Samples.p := Samples.o3]} {[Samples.p]}
      Samples.branch = Done self' ∧
    ∀ p, p ∈ ({[Samples.p]} : gset Var) →
         ∃ r, ({[Samples.p := Samples.o3]} : gmap Var Var) !! p = Some r ∧
              (IsOutput r = true → owner_exists Samples.diamond r).
Proof.
  eexists. split; [vm_compute; reflexivity|].
  eapply (OnPlaceholdersReplaced_Done_entries Samples.diamond 4
            {[Samples.p := Samples.o3]} {[Samples.p]} Samples.branch).
  vm_compute. reflexivity.
Defined.

(** A replaced placeholder without an entry: the call does not return. *)
Example OnPlaceholdersReplaced_missing_entry :
  OnPlaceholdersReplaced Samples.diamond 4 ∅ {[Samples.p]} Samples.branch =
    Fail OutOfRange.
Proof. by vm_compute. Qed.

Lemma OnPlaceholdersReplaced_loop_no_output (g : Graph) (fuel : nat)
    (placeholderReplacements : gmap Var Var) :
  ∀ replacedPlaceholders all,
    (∀ p, p ∈ replacedPlaceholders →
          ∃ r, placeholderReplacements !! p = Some r ∧ IsOutput r = false) →
    OnPlaceholdersReplaced_loop g fuel placeholderReplacements replacedPlaceholders all =
      Done all.
Proof.
  induction replacedPlaceholders as [|p rest IH]; intros all Hall; simpl; [done|].
  destruct (Hall p) as (r & -> & ->); [by left|].
  apply IH. intros q Hq. apply Hall. by right.
Qed.

(** X8: when no replacement is an Output, OnPlaceholdersReplaced leaves
    the composite as it is; the graph is not walked, so this holds for
    every graph and every fuel, the empty set of placeholders included. *)
Theorem OnPlaceholdersReplaced_no_output (g : Graph) (fuel : nat)
    (placeholderReplacements : gmap Var Var) (replacedPlaceholders : gset Var)
    (self : CompositeFunction) :
  (∀ p, p ∈ replacedPlaceholders →
        ∃ r, placeholderReplacements !! p = Some r ∧ IsOutput r = false) →
  OnPlaceholdersReplaced g fuel placeholderReplacements replacedPlaceholders self =
    Done self.
Proof.
  intros Hall. unfold OnPlaceholdersReplaced.
  rewrite OnPlaceholdersReplaced_loop_no_output.
  - by destruct self.
  - intros p Hp. apply Hall. by apply elem_of_elements.
Qed.

Lemma OnPlaceholdersReplaced_no_output_witness :
  OnPlaceholdersReplaced Cases.broken 0 {[Samples.p := Samples.x]} {[Samples.p]}
    Samples.branch = Done Samples.branch.
Proof.
  apply (OnPlaceholdersReplaced_no_output Cases.broken 0 {[Samples.p := Samples.x]}
           {[Samples.p]} Samples.branch).
  intros p Hp. apply elem_of_singleton in Hp. subst p.
  exists Samples.x. split; by vm_compute.
Defined.

(** X9: OnPlaceholdersReplaced is idempotent: run again with the same
    arguments on the composite it returned, it returns that composite. *)
Theorem OnPlaceholdersReplaced_idempotent (g : Graph) (fuel : nat)
    (placeholderReplacements : gmap Var Var) (replacedPlaceholders : gset Var)
    (self self' : CompositeFunction) :
  OnPlaceholdersReplaced g fuel placeholderReplacements replacedPlaceholders self =
    Done self' →
  OnPlaceholdersReplaced g fuel placeholderReplacements replacedPlaceholders self' =
    Done self'.
Proof.
  unfold OnPlaceholdersReplaced. intros H.
  apply result_map_Done in H as (all' & Hloop & ->). simpl.
  destruct (OnPlaceholdersReplaced_loop_Done _ _ _ _ _ _ Hloop) as (_ & X & -> & HX).
  rewrite HX. simpl. do 2 f_equal. set_solver.
Qed.

Lemma OnPlaceholdersReplaced_idempotent_witness :
  ∃ self',
    OnPlaceholdersReplaced Samples.diamond 4 {[Samples.p := Samples.o3]} {[Samples.p]}
      Samples.branch = Done self' ∧
    OnPlaceholdersReplaced Samples.diamond 4 {[Samples.p := Samples.o3]} {[Samples.p]}
      self' = Done self'.
Proof.
  eexists. split; [vm_compute; reflexivity|].
  apply (OnPlaceholdersReplaced_idempotent Samples.diamond 4
           {[Samples.p := Samples.o3]} {[Samples.p]} Samples.branch).
  vm_compute. reflexivity.
Defined.

(** ** ClearExistingOutputOrGradientStorageReferences, further *)

(** X10: ClearExistingOutputOrGradientStorageReferences neither frees
    nor creates a PackedValue: the same ones are alive after the call as
    before it. *)
Theorem ClearExisting_keeps_alive {PackedValue : Type}
    (Erase : PackedValue → PackedValue) (self : CompositeFunction)
    (store : gmap positive PackedValue) :
  dom (ClearExistingOutputOrGradientStorageReferences Erase self store).2 = dom store.
Proof.
  apply set_eq. intros r. rewrite !elem_of_dom.
  unfold ClearExistingOutputOrGradientStorageReferences. simpl.
  rewrite erase_references_lookup. by rewrite fmap_is_Some.
Qed.

Lemma iter_idempotent {A} (f : A → A) (n : nat) (a : A) :
  (∀ a, f (f a) = f a) → Nat.iter (S n) f a = f a.
Proof.
  intros Hf. induction n as [|n IH]; [done|].
  change (Nat.iter (S (S n)) f a) with (f (Nat.iter (S n) f a)). by rewrite IH.
Qed.

(** X11: when erasing an erased PackedValue changes nothing, it does
    not matter how often a reference is tracked: after the call every
    tracked PackedValue that was alive is the erased form of what it was. *)
Theorem ClearExisting_erases_once {PackedValue : Type}
    (Erase : PackedValue → PackedValue) (self : CompositeFunction)
    (store : gmap positive PackedValue) :
  (∀ v, Erase (Erase v) = Erase v) →
  ∀ r, r ∈ m_existingNetworkStorageReferences self →
       (ClearExistingOutputOrGradientStorageReferences Erase self store).2 !! r =
       Erase <$> store !! r.
Proof.
  intros Hidem r Hr. unfold ClearExistingOutputOrGradientStorageReferences. simpl.
  rewrite erase_references_lookup. pose proof (held_pos r _ Hr) as Hpos.
  destruct (held r (m_existingNetworkStorageReferences self)) as [|n]; [lia|].
  destruct (store !! r) as [v|]; [|done]. simpl.
  f_equal. by apply (iter_idempotent Erase n v).
Qed.

(** A value tracked twice, with an Erase that sets it to 0. *)
Lemma ClearExisting_erases_once_witness :
  (ClearExistingOutputOrGradientStorageReferences (λ _ : nat, 0)
     (mkComposite 1%positive ∅ [5%positive; 6%positive; 5%positive] ∅)
     {[5%positive := 1; 7%positive := 2]}).2 !! 5%positive =
  (λ _ : nat, 0) <$> ({[5%positive := 1; 7%positive := 2]} : gmap positive nat) !! 5%positive.
Proof.
  apply (ClearExisting_erases_once (λ _ : nat, 0)
           (mkComposite 1%positive ∅ [5%positive; 6%positive; 5%positive] ∅)
           {[5%positive := 1; 7%positive := 2]}).
  - reflexivity.
  - apply (bool_decide_unpack _). by vm_compute.
Defined.

(** ** NextAutoGeneratedDynamicAxis *)

Lemma counter_after_spec (k s : N) :
  (s < 2 ^ 32)%N → counter_after k s = ((s + k) mod 2 ^ 32)%N.
Proof.
  intros Hs. unfold counter_after. induction k as [|k IH] using N.peano_ind.
  - simpl. rewrite N.add_0_r. by rewrite N.mod_small.
  - rewrite N.iter_succ, IH. unfold NextAutoGeneratedDynamicAxis. simpl.
    rewrite N.Div0.add_mod_idemp_l. f_equal. lia.
Qed.

Lemma mod_2_32_distinct (s i j : N) :
  (i < j)%N → (j - i < 2 ^ 32)%N → ((s + i) mod 2 ^ 32 ≠ (s + j) mod 2 ^ 32)%N.
Proof.
  intros Hij Hd Heq.
  pose proof (N.Div0.div_mod (s + i) (2 ^ 32)) as H1.
  pose proof (N.Div0.div_mod (s + j) (2 ^ 32)) as H2.
  rewrite Heq in H1.
  set (M := (2 ^ 32)%N) in *.
  set (q1 := ((s + i) / M)%N) in *. set (q2 := ((s + j) / M)%N) in *.
  set (r := ((s + j) mod M)%N) in *.
  assert (j - i = M * (q2 - q1))%N as Hm by nia.
  assert (q2 - q1 = 0 ∨ 1 ≤ q2 - q1)%N as [H0|H0] by lia; nia.
Qed.

(** X12: the names NextAutoGeneratedDynamicAxis hands out are distinct
    as long as fewer than 2^32 calls lie between them. *)
Theorem NextAutoGeneratedDynamicAxis_distinct (s i j : N) :
  (s < 2 ^ 32)%N → (i < j)%N → (j - i < 2 ^ 32)%N →
  nth_generated_axis i s ≠ nth_generated_axis j s.
Proof.
  intros Hs Hij Hd. unfold nth_generated_axis, NextAutoGeneratedDynamicAxis. simpl.
  rewrite !counter_after_spec by done. intros Heq.
  apply (f_equal AxisName) in Heq. unfold AxisName in Heq.
  apply (inj (String.append s_autoGeneratedDynamicAxisNamePrefix)) in Heq.
  apply (inj pretty) in Heq. exact (mod_2_32_distinct s i j Hij Hd Heq).
Qed.

Lemma NextAutoGeneratedDynamicAxis_distinct_witness :
  nth_generated_axis 0 4294967295 ≠ nth_generated_axis 1 4294967295.
Proof.
  apply (NextAutoGeneratedDynamicAxis_distinct 4294967295 0 1); reflexivity.
Defined.

(** X13: the counter is an unsigned 32-bit number, so call number
    [k + 2^32] hands out the name of call number [k] again. *)
Theorem NextAutoGeneratedDynamicAxis_wraps (s k : N) :
  (s < 2 ^ 32)%N →
  nth_generated_axis (k + 2 ^ 32) s = nth_generated_axis k s.
Proof.
  intros Hs. unfold nth_generated_axis. rewrite !counter_after_spec by done.
  assert (((s + (k + 2 ^ 32)) mod 2 ^ 32 = (s + k) mod 2 ^ 32)%N) as ->; [|done].
  replace (s + (k + 2 ^ 32))%N with (s + k + 1 * 2 ^ 32)%N by lia.
  apply N.Div0.mod_add.
Qed.

Lemma NextAutoGeneratedDynamicAxis_wraps_witness :
  nth_generated_axis (3 + 2 ^ 32) 0 = nth_generated_axis 3 0.
Proof. apply (NextAutoGeneratedDynamicAxis_wraps 0 3). reflexivity. Defined.

(** The counter passes from 2^32 - 1 to 0. *)
Example NextAutoGeneratedDynamicAxis_samples :
  NextAutoGeneratedDynamicAxis 7 = (mkAxis "autoGeneratedDynamicAxis_7", 8%N) ∧
  NextAutoGeneratedDynamicAxis 4294967295 =
    (mkAxis "autoGeneratedDynamicAxis_4294967295", 0%N).
Proof. split; by vm_compute. Qed.

(** ** DetermineInputs over a visited set of the caller *)

(** X14: whatever the graph, the fuel and the visited set handed in,
    a list DetermineInputs returns holds no Output and no Variable twice,
    and every Variable in it is an input of the root or of a Function that
    was not in the visited set handed in and is reachable from the root;
    the inputs of Functions the caller had marked visited are not collected
    through them. *)
Theorem DetermineInputs_no_output_no_duplicate (g : Graph) (fuel : nat)
    (root : FunctionPtr) (V V' : gset positive) (py : bool) (inputs : list Var) :
  DetermineInputs g fuel root V py = Done (V', inputs) →
  NoDup inputs ∧
  ∀ v, v ∈ inputs →
       IsOutput v = false ∧
       ∃ a f, (a = root ∨ a ∉ V) ∧ reachable g py root a ∧ g !! a = Some f ∧
              (v ∈ Inputs f py ∨ v ∈ InitOutputs f).
Proof.
  rewrite DetermineInputs_visits. intros H.
  apply result_map_Done in H as ([V1 t] & Hv & [= -> ->]). simpl.
  split; [apply first_seen_NoDup|].
  intros v. rewrite first_seen_elem, list_elem_of_filter. intros [Hout Hin].
  split; [done|].
  pose proof (visits_walk g py true fuel root V) as H. rewrite Hv in H.
  destruct (walk g py fuel root V) as [[V2 L]| |] eqn:Hw; simpl in H; try done.
  destruct H as [_ Ht]. rewrite Ht in Hin.
  apply list_elem_of_bind in Hin as (a & Hin & Ha).
  destruct (walk_walk_post _ _ _ _ _ _ _ Hw) as (_ & _ & _ & Hfresh & Hreach & _).
  unfold vars_of in Hin. destruct (g !! a) as [f|] eqn:Hf; [|by apply elem_of_nil in Hin].
  exists a, f. split; [by apply Hfresh|]. split; [by apply Hreach|]. split; [done|].
  apply elem_of_app in Hin as [?|Hin]; [by right|left].
  by apply list_elem_of_filter in Hin as [_ ?].
Qed.

Lemma DetermineInputs_no_output_no_duplicate_witness :
  ∃ V' inputs,
    DetermineInputs Samples.diamond 4 1%positive {[2%positive]} false = Done (V', inputs) ∧
    NoDup inputs ∧
    ∀ v, v ∈ inputs →
         IsOutput v = false ∧
         ∃ a f, (a = 1%positive ∨ a ∉ ({[2%positive]} : gset positive)) ∧
                reachable Samples.diamond false 1%positive a ∧
                Samples.diamond !! a = Some f ∧
                (v ∈ Inputs f false ∨ v ∈ InitOutputs f).
Proof.
  eexists _, _. split; [vm_compute; reflexivity|].
  eapply (DetermineInputs_no_output_no_duplicate Samples.diamond 4 1%positive
            {[2%positive]}).
  vm_compute. reflexivity.
Defined.
